(** * adk-rnd: task engine, approval queue and session manager

    A shallow embedding of the stateful pieces of the repository:

    - [SessionManager]: [mcp/sqlite_mcp/pkg/sessionmanager] (sliding-TTL
      sessions over a [map[string]*SessionInfo]);
    - [TaskEngine]: the long running task registry that appears verbatim in
      [mcp/long_running_tasks_mcp/main.go] and
      [mcp/human_in_the_loop_wrapper/main.go];
    - [LRO]: the pass-through proxy of [mcp/long_running_tasks_mcp/main.go];
    - [HITL]: the consent proxy of [mcp/human_in_the_loop_wrapper/main.go].

    Go maps are [gmap]s, Go pointers that may be nil are [option]s, a Go
    [(value, error)] pair is a sum, [time.Time] and [time.Duration] are
    integers (nanoseconds).  Goroutines are entries of a goroutine table and
    the scheduler is a list of events; every critical section guarded by a
    mutex is one event. *)

From Stdlib Require Import ZArith Lia Ascii.
From stdpp Require Import base option list gmap strings pretty.

Open Scope Z_scope.
Open Scope string_scope.

(** Go's [error] values are compared through their [Error()] text. *)
Abbreviation error := string (only parsing).

(** ** mcp/sqlite_mcp/pkg/sessionmanager *)

Module SessionManager.

Record SessionInfo := mkSessionInfo {
  Path : string;
  ExpiresAt : Z;
  LastAccess : Z
}.

Record SessionManager := mkSessionManager {
  sessions : gmap string SessionInfo;
  rootDir : string;
  expiration : Z;
  cleanupFreq : Z
}.

Definition with_sessions (m : SessionManager)
    (f : gmap string SessionInfo → gmap string SessionInfo) : SessionManager :=
  {| sessions := f (sessions m); rootDir := rootDir m;
     expiration := expiration m; cleanupFreq := cleanupFreq m |}.

(** [t.After(u)]: strictly later. *)
Definition After (t u : Z) : bool := bool_decide (u < t).

(** [t.Add(d)]. *)
Definition Add (t d : Z) : Z := t + d.

Definition Minute : Z := 60 * 1000000000.

Definition errInvalidSession : error := "invalid session".
Definition errSessionExpired : error := "session expired".

(** The in-memory part of [NewSessionManager]. *)
Definition NewSessionManager (root : string) (exp : Z) : SessionManager :=
  {| sessions := ∅; rootDir := root; expiration := exp;
     cleanupFreq := 1 * Minute |}.

(** [filepath.Join(m.rootDir, sessionID+".db")] for a clean root. *)
Definition dbPath (m : SessionManager) (sessionID : string) : string :=
  rootDir m ++ "/" ++ sessionID ++ ".db".

Section WithDatabase.
(** [database/sql] is outside the repository: a handle type and the
    outcome of [sql.Open("sqlite3", path)]. *)
Variable DB : Type.
Variable sql_Open : string → DB + error.

(** [CreateDatabase], with the identifier drawn by [generateSessionID],
    the outcome of the [CREATE TABLE] statement and the clock reading
    supplied by the environment. *)
Definition CreateDatabase (sessionID : string) (exec : option error) (now : Z)
    (m : SessionManager) : (string + error) * SessionManager :=
  match sql_Open (dbPath m sessionID) with
  | inr err => (inr err, m)
  | inl _ =>
      match exec with
      | Some err => (inr err, m)
      | None =>
          (inl sessionID,
           with_sessions m
             (insert sessionID
                {| Path := dbPath m sessionID;
                   ExpiresAt := Add now (expiration m);
                   LastAccess := now |}))
      end
  end.

Definition GetDB (now : Z) (m : SessionManager) (sessionID : string)
    : (DB + error) * SessionManager :=
  match sessions m !! sessionID with
  | None => (inr errInvalidSession, m)
  | Some info =>
      if After now (ExpiresAt info) then
        (inr errSessionExpired, with_sessions m (delete sessionID))
      else
        let info' := {| Path := Path info;
                        ExpiresAt := Add now (expiration m);
                        LastAccess := now |} in
        let m' := with_sessions m (insert sessionID info') in
        match sql_Open (Path info') with
        | inr err => (inr ("failed to open sqlite db: " ++ err), m')
        | inl db => (inl db, m')
        end
  end.

(** [cleanupExpired]: the sessions that survive, and the paths handed
    to [os.Remove]. *)
Definition cleanupExpired (now : Z) (m : SessionManager)
    : list string * SessionManager :=
  (Path <$> (snd <$> map_to_list
     (filter (λ kv, After now (ExpiresAt kv.2) = true) (sessions m))),
   with_sessions m (filter (λ kv, After now (ExpiresAt kv.2) = false))).

(** What the session manager's callers and its ticker do to it, and what
    each call answers. *)
Inductive event :=
  | EvCreate (sessionID : string) (exec : option error)
  | EvGetDB (sessionID : string)
  | EvCleanup.

Inductive output :=
  | OutCreate (r : string + error)
  | OutGetDB (r : DB + error)
  | OutCleanup (removed : list string).

Definition step (now : Z) (e : event) (m : SessionManager)
    : output * SessionManager :=
  match e with
  | EvCreate sid exec =>
      let '(r, m') := CreateDatabase sid exec now m in (OutCreate r, m')
  | EvGetDB sid => let '(r, m') := GetDB now m sid in (OutGetDB r, m')
  | EvCleanup => let '(r, m') := cleanupExpired now m in (OutCleanup r, m')
  end.

(** A schedule: each event with the clock reading it takes. *)
Fixpoint run (evs : list (Z * event)) (m : SessionManager)
    : list (Z * event * output) * SessionManager :=
  match evs with
  | [] => ([], m)
  | (now, e) :: evs =>
      let '(o, m1) := step now e m in
      let '(tr, m2) := run evs m1 in
      ((now, e, o) :: tr, m2)
  end.

(** What [GetDB] answers once the session checks have passed. *)
Definition opened (path : string) : DB + error :=
  match sql_Open path with
  | inr err => inr ("failed to open sqlite db: " ++ err)
  | inl db => inl db
  end.


End WithDatabase.

Arguments CreateDatabase {DB} sql_Open sessionID exec now m.
Arguments GetDB {DB} sql_Open now m sessionID.
Arguments OutCreate {DB} r.
Arguments OutGetDB {DB} r.
Arguments OutCleanup {DB} removed.
Arguments step {DB} sql_Open now e m.
Arguments run {DB} sql_Open evs m.
Arguments opened {DB} sql_Open path.

End SessionManager.


(** ** The parts of [github.com/mark3labs/mcp-go/mcp] the proxies use *)

Module Mcp.

(** A decoded JSON argument. *)
Inductive Value :=
  | VString (s : string)
  | VNumber (n : Z)
  | VBool (b : bool)
  | VNull.

Record CallToolRequest := mkCallToolRequest {
  Name : string;
  Arguments : gmap string Value
}.

Record CallToolResult := mkCallToolResult {
  Content : list string;
  StructuredContent : option (list (string * string));
  IsError : bool
}.

Definition NewToolResultText (text : string) : CallToolResult :=
  {| Content := [text]; StructuredContent := None; IsError := false |}.

Definition NewToolResultError (text : string) : CallToolResult :=
  {| Content := [text]; StructuredContent := None; IsError := true |}.

Definition NewToolResultErrorFromErr (text : string) (err : error) : CallToolResult :=
  NewToolResultError (text ++ ": " ++ err).

Definition NewToolResultStructured (structured : list (string * string))
    (fallbackText : string) : CallToolResult :=
  {| Content := [fallbackText]; StructuredContent := Some structured;
     IsError := false |}.

Definition GetArguments (r : CallToolRequest) : gmap string Value := Arguments r.

(** [%q]. *)
Definition quoted (s : string) : string :=
  String "034"%char (s ++ String "034"%char EmptyString).

Definition RequireString (r : CallToolRequest) (key : string) : string + error :=
  match GetArguments r !! key with
  | Some (VString str) => inl str
  | Some _ => inr ("argument " ++ quoted key ++ " is not a string")
  | None => inr ("required argument " ++ quoted key ++ " not found")
  end.

(** What [mcpClient.CallTool(ctx, req)] answers, a result or an error: the
    upstream server, its transport and the deadline of [ctx] are the
    environment's. *)
Definition upstream : Type := CallToolRequest → CallToolResult + error.

End Mcp.

Import Mcp.

(** ** The long running task registry

    [LongRunningTask], [Run], [startLongRunningTask] and
    [checkLongRunningTaskHandler] are the same text in
    [long_running_tasks_mcp/main.go] and [human_in_the_loop_wrapper/main.go]. *)

Module TaskEngine.

(** [type LongRunningTaskStatus int] with [Pending = iota] and [Done]. *)
Definition LongRunningTaskStatus : Type := Z.
Definition Pending : LongRunningTaskStatus := 0.
Definition Done : LongRunningTaskStatus := 1.

(** [result] is a [*mcp.CallToolResult]: [None] is the nil pointer. *)
Record LongRunningTask := mkLongRunningTask {
  ID : string;
  status : LongRunningTaskStatus;
  result : option CallToolResult
}.

(** A [*LongRunningTask] is an index into the heap of allocated tasks; the
    [sync.Map] holds such pointers, and so does each task's goroutine. *)
Abbreviation ptr := nat (only parsing).

Record registry := mkRegistry {
  heap : list LongRunningTask;
  longRunningTasks : gmap string nat;
  nextID : Z
}.

Definition empty_registry : registry :=
  {| heap := []; longRunningTasks := ∅; nextID := 0 |}.

(** [atomic.AddUint64(&nextID, 1)]. *)
Definition AddUint64 (x delta : Z) : Z := (x + delta) mod 2 ^ 64.

(** [(t *LongRunningTask).Status()] and [.Result()]. *)
Definition Status (t : LongRunningTask) : LongRunningTaskStatus := status t.
Definition Result (t : LongRunningTask) : option CallToolResult := result t.

(** [Run(f)] up to the [go] statement: the new task and its pointer.  The
    goroutine it starts is recorded by the caller, who knows what [f] is. *)
Definition Run (reg : registry) : ptr * registry :=
  let n := AddUint64 (nextID reg) 1 in
  let t := {| ID := pretty (Z.to_N n); status := Pending; result := None |} in
  (length (heap reg),
   {| heap := heap reg ++ [t];
      longRunningTasks := longRunningTasks reg;
      nextID := n |}).

(** The end of the goroutine of [Run], once [f()] has returned [out]:
    [t.status = Done; t.result = out] under [t.mu]. *)
Definition finish (t : LongRunningTask) (out : option CallToolResult)
    : LongRunningTask :=
  {| ID := ID t; status := Done; result := out |}.

Definition complete (p : ptr) (out : option CallToolResult) (reg : registry)
    : registry :=
  {| heap := alter (λ t, finish t out) p (heap reg);
     longRunningTasks := longRunningTasks reg;
     nextID := nextID reg |}.

(** [longRunningTasks.Store(t.ID, t)]. *)
Definition Store (id : string) (p : ptr) (reg : registry) : registry :=
  {| heap := heap reg;
     longRunningTasks := <[id := p]> (longRunningTasks reg);
     nextID := nextID reg |}.

Definition started (id : string) : CallToolResult :=
  NewToolResultStructured [("long_running_task_id", id)]
    ("Started long running task with ID: " ++ id).

(** [startLongRunningTask(f)]: the reply, the pointer of the task whose
    goroutine runs [f], and the registry. *)
Definition startLongRunningTask (reg : registry)
    : CallToolResult * ptr * registry :=
  let '(p, reg1) := Run reg in
  let id := default EmptyString (ID <$> heap reg1 !! p) in
  (started id, p, Store id p reg1).

(** What a handler does before it returns: how long it slept, and the
    [*mcp.CallToolResult] it returns (its [error] is always nil). *)
Inductive outcome :=
  | Returned (slept : Z) (res : option CallToolResult)
  | Panicked.

Definition Second : Z := 1000000000.

Definition checkLongRunningTaskHandler (r : CallToolRequest) (reg : registry)
    : outcome :=
  match RequireString r "id" with
  | inr err =>
      Returned 0 (Some (NewToolResultErrorFromErr "missing required argument" err))
  | inl id =>
      match longRunningTasks reg !! id with
      | None => Returned 0 (Some (NewToolResultError ("unknown task ID " ++ id)))
      | Some p =>
          match heap reg !! p with
          | None => Panicked
          | Some t =>
              if decide (Status t = Pending) then
                Returned (3 * Second)
                  (Some (NewToolResultText ("Task " ++ id ++ " is pending")))
              else if decide (Status t = Done) then
                Returned 0 (Result t)
              else Panicked
          end
      end
  end.

End TaskEngine.

Import TaskEngine.

(** ** mcp/long_running_tasks_mcp/main.go *)

Module LRO.

Record MethodConfig := mkMethodConfig {
  MethodName : string;
  Enabled : bool
}.

(** [loadConfig] after [json.Unmarshal]: later entries replace earlier ones
    of the same name. *)
Definition loadConfig (cs : list MethodConfig) : gmap string MethodConfig :=
  foldl (λ m c, <[MethodName c := c]> m) ∅ cs.

(** The loop of [main] that fills [lroMethods]. *)
Definition lroMethodsOf (configs : gmap string MethodConfig) : gset string :=
  list_to_set (MethodName <$> filter (λ c, Enabled c = true)
                                (snd <$> map_to_list configs)).

(** A goroutine started by [Run], named by the task it will complete. *)
Inductive goroutine :=
  | Forwarding (req : CallToolRequest)
  | Returning (out : option CallToolResult).

Record state := mkState {
  tasks : registry;
  goroutines : gmap nat goroutine
}.

Definition init : state := {| tasks := empty_registry; goroutines := ∅ |}.

(** The handler registered for the upstream tool [toolName]. *)
Definition proxyHandler (lroMethods : gset string) (toolName : string)
    (CallTool : upstream) (req : CallToolRequest) (s : state)
    : (CallToolResult + error) * state :=
  if decide (toolName ∈ lroMethods) then
    let '(res, p, reg) := startLongRunningTask (tasks s) in
    (inl res, {| tasks := reg; goroutines := <[p := Forwarding req]> (goroutines s) |})
  else
    match CallTool req with
    | inr err => (inl (NewToolResultError ("forward error: " ++ err)), s)
    | inl res => (inl res, s)
    end.

(** The body of the closure given to [startLongRunningTask]. *)
Definition work (CallTool : upstream) (req : CallToolRequest)
    : option CallToolResult :=
  match CallTool req with
  | inr err => Some (NewToolResultError ("forward error: " ++ err))
  | inl res => Some res
  end.

Inductive event :=
  | EvCall (toolName : string) (req : CallToolRequest) (CallTool : upstream)
  | EvCheck (req : CallToolRequest)
  | EvWork (p : nat) (CallTool : upstream)
  | EvDone (p : nat).

Definition step (lroMethods : gset string) (e : event) (s : state) : state :=
  match e with
  | EvCall toolName req CallTool =>
      (proxyHandler lroMethods toolName CallTool req s).2
  | EvCheck _ => s
  | EvWork p CallTool =>
      match goroutines s !! p with
      | Some (Forwarding req) =>
          {| tasks := tasks s;
             goroutines := <[p := Returning (work CallTool req)]> (goroutines s) |}
      | _ => s
      end
  | EvDone p =>
      match goroutines s !! p with
      | Some (Returning out) =>
          {| tasks := complete p out (tasks s);
             goroutines := delete p (goroutines s) |}
      | _ => s
      end
  end.

Definition run (lroMethods : gset string) (evs : list event) (s : state) : state :=
  foldl (λ s e, step lroMethods e s) s evs.

End LRO.

(** ** mcp/human_in_the_loop_wrapper/main.go *)

Module HITL.

(** [ResponseC] is the channel made by the goroutine of task [ResponseC]:
    every such goroutine makes exactly one. *)
Record pendingCall := mkPendingCall {
  pcID : Z;
  Request : CallToolRequest;
  ResponseC : nat
}.

(** A goroutine started by [Run] for the closure of [consentProxyHandler]:
    before its critical section, blocked in its [select], or back from the
    closure with the value it returns. *)
Inductive goroutine :=
  | Registering (req : CallToolRequest)
  | Selecting (pc : pendingCall)
  | Returning (out : option CallToolResult).

Record state := mkState {
  callQueue : gmap Z pendingCall;
  nextCallID : Z;
  tasks : registry;
  goroutines : gmap nat goroutine
}.

Definition init : state :=
  {| callQueue := ∅; nextCallID := 1; tasks := empty_registry; goroutines := ∅ |}.

(** [nextCallID++] on a 64-bit [int]. *)
Definition incr_int (n : Z) : Z := (n + 1 + 2 ^ 63) mod 2 ^ 64 - 2 ^ 63.

(** The outcomes of [cel-go] on an expression and its [args]. *)
Inductive celValue :=
  | CelBool (b : bool)
  | CelOther (goType : string).

Inductive celRun :=
  | CelEnvError (err : error)
  | CelCompileError (err : error)
  | CelProgramError (err : error)
  | CelEvalError (err : error)
  | CelOut (v : celValue).

Section WithCel.
Variable cel : string → gmap string Value → celRun.

Definition evalConstraint (constraintExpr : string) (args : gmap string Value)
    : bool + error :=
  if decide (constraintExpr = EmptyString) then inl true
  else
    match cel constraintExpr args with
    | CelEnvError err => inr ("failed to create CEL env: " ++ err)
    | CelCompileError err => inr ("failed to compile CEL: " ++ err)
    | CelProgramError err => inr ("failed to create CEL program: " ++ err)
    | CelEvalError err => inr ("failed to evaluate CEL expression: " ++ err)
    | CelOut (CelBool boolVal) => inl boolVal
    | CelOut (CelOther goType) =>
        inr ("CEL constraint did not return a boolean: got " ++ goType)
    end.

Definition consentProxyHandler (req : CallToolRequest)
    (toolName constraintExpr : string) (s : state) : CallToolResult * state :=
  match evalConstraint constraintExpr (GetArguments req) with
  | inr err =>
      (NewToolResultError ("constraint failed to evaluate: " ++ err), s)
  | inl false => (NewToolResultError "constraint returned false", s)
  | inl true =>
      let '(res, p, reg) := startLongRunningTask (tasks s) in
      (res, {| callQueue := callQueue s; nextCallID := nextCallID s;
               tasks := reg;
               goroutines := <[p := Registering req]> (goroutines s) |})
  end.

(** [constraints[t.Name]]: the zero value when the name has no entry. *)
Definition constraintFor (constraints : gmap string string) (name : string)
    : string :=
  default EmptyString (constraints !! name).

(** The handler [main] registers for the upstream tool [name]. *)
Definition toolHandler (constraints : gmap string string) (name : string)
    (req : CallToolRequest) (s : state) : CallToolResult * state :=
  consentProxyHandler req name (constraintFor constraints name) s.

End WithCel.

(** The critical section of the closure: take an id, make the channel,
    put the call in the queue. *)
Definition register (p : nat) (req : CallToolRequest) (s : state)
    : pendingCall * state :=
  let id := nextCallID s in
  let pc := {| pcID := id; Request := req; ResponseC := p |} in
  (pc, {| callQueue := <[id := pc]> (callQueue s);
          nextCallID := incr_int (nextCallID s);
          tasks := tasks s;
          goroutines := goroutines s |}).

Definition cancelled : CallToolResult :=
  NewToolResultError "Cancelled while waiting for approval".

(** The two branches of the [select]. *)
Inductive wakeup :=
  | Received (result : CallToolResult)
  | CtxDone.

Definition selected (w : wakeup) : option CallToolResult :=
  match w with
  | Received result => Some result
  | CtxDone => Some cancelled
  end.

Definition set_goroutines (s : state) (g : gmap nat goroutine) : state :=
  {| callQueue := callQueue s; nextCallID := nextCallID s;
     tasks := tasks s; goroutines := g |}.

(** The goroutine of task [p] leaves its [select] through branch [w]. *)
Definition wake (p : nat) (w : wakeup) (s : state) : state :=
  set_goroutines s (<[p := Returning (selected w)]> (goroutines s)).

(** [handleApproval]: its critical section, *)
Definition lookupAndDelete (id : Z) (s : state) : option pendingCall * state :=
  (callQueue s !! id,
   {| callQueue := delete id (callQueue s); nextCallID := nextCallID s;
      tasks := tasks s; goroutines := goroutines s |}).

(** the value it decides to send, *)
Definition decision (approve : bool) (CallTool : upstream) (pc : pendingCall)
    : CallToolResult :=
  if approve then
    match CallTool (Request pc) with
    | inr err => NewToolResultError ("Forward error: " ++ err)
    | inl res => res
    end
  else NewToolResultError "User rejected the request".

(** and the send on the unbuffered [pc.ResponseC], which completes only if
    the goroutine that made the channel is still in its [select]. *)
Definition send (c : nat) (v : CallToolResult) (s : state) : bool * state :=
  match goroutines s !! c with
  | Some (Selecting _) => (true, wake c (Received v) s)
  | _ => (false, s)
  end.

Inductive httpResponse :=
  | BadRequest (msg : string)
  | NotFound (msg : string)
  | Found (location : string)
  | Blocked.

(** [id] is the outcome of [strconv.Atoi] on the query parameter. *)
Definition handleApproval (approve : bool) (id : option Z) (CallTool : upstream)
    (s : state) : httpResponse * state :=
  match id with
  | None => (BadRequest "Invalid ID", s)
  | Some id =>
      let '(pc, s1) := lookupAndDelete id s in
      match pc with
      | None => (NotFound "Not found", s1)
      | Some pc =>
          let '(delivered, s2) := send (ResponseC pc) (decision approve CallTool pc) s1 in
          if delivered then (Found "/", s2) else (Blocked, s2)
      end
  end.

Inductive event :=
  | EvCall (name : string) (req : CallToolRequest)
  | EvCheck (req : CallToolRequest)
  | EvRegister (p : nat)
  | EvCtxDone (p : nat)
  | EvDone (p : nat)
  | EvDecide (approve : bool) (id : option Z) (CallTool : upstream).

Inductive output :=
  | OutTool (res : CallToolResult)
  | OutCheck (o : outcome)
  | OutHttp (r : httpResponse)
  | OutNone.

Section WithConfig.
Variable cel : string → gmap string Value → celRun.
Variable constraints : gmap string string.

Definition step (e : event) (s : state) : output * state :=
  match e with
  | EvCall name req =>
      let '(res, s') := toolHandler cel constraints name req s in (OutTool res, s')
  | EvCheck req => (OutCheck (checkLongRunningTaskHandler req (tasks s)), s)
  | EvRegister p =>
      match goroutines s !! p with
      | Some (Registering req) =>
          let '(pc, s1) := register p req s in
          (OutNone, set_goroutines s1 (<[p := Selecting pc]> (goroutines s1)))
      | _ => (OutNone, s)
      end
  | EvCtxDone p =>
      match goroutines s !! p with
      | Some (Selecting _) => (OutNone, wake p CtxDone s)
      | _ => (OutNone, s)
      end
  | EvDone p =>
      match goroutines s !! p with
      | Some (Returning out) =>
          (OutNone,
           {| callQueue := callQueue s; nextCallID := nextCallID s;
              tasks := complete p out (tasks s);
              goroutines := delete p (goroutines s) |})
      | _ => (OutNone, s)
      end
  | EvDecide approve id CallTool =>
      let '(r, s') := handleApproval approve id CallTool s in (OutHttp r, s')
  end.

(** A schedule, with what each event answered. *)
Fixpoint run (evs : list event) (s : state) : list (event * output) * state :=
  match evs with
  | [] => ([], s)
  | e :: evs =>
      let '(o, s1) := step e s in
      let '(tr, s2) := run evs s1 in
      ((e, o) :: tr, s2)
  end.

End WithConfig.

End HITL.

(** ** Concrete worlds used by the examples *)

Module Scenario.

(** A database layer whose handles are the paths they were opened on, *)
Definition open_ok (path : string) : string + error := inl path.

(** and one where the open fails. *)
Definition open_fails (path : string) : string + error :=
  inr "unable to open database file".

(** A manager with a 50ms TTL holding session ["s"], due at 100. *)
Definition info0 : SessionManager.SessionInfo :=
  {| SessionManager.Path := "/tmp/sqlite_mcp/s.db";
     SessionManager.ExpiresAt := 100;
     SessionManager.LastAccess := 50 |}.

Definition mgr0 : SessionManager.SessionManager :=
  SessionManager.with_sessions
    (SessionManager.NewSessionManager "/tmp/sqlite_mcp" 50)
    (insert "s" info0).

(** Upstream servers: one that answers, one whose call fails. *)
Definition up_ok : upstream := λ _, inl (NewToolResultText "ok").
Definition up_fails : upstream := λ _, inr "transport closed".

(** The README's constraint on [add_task], as [cel-go] would run it. *)
Definition cel_demo (expr : string) (args : gmap string Value) : HITL.celRun :=
  if decide (expr = "args.description.size() > 3") then
    match args !! "description" with
    | Some (VString d) =>
        HITL.CelOut (HITL.CelBool (bool_decide (3 < String.length d)%nat))
    | _ => HITL.CelEvalError "no such key: description"
    end
  else HITL.CelCompileError "undeclared reference".

Definition constraints0 : gmap string string :=
  {[ "add_task" := "args.description.size() > 3" ]}.

Definition req_add : CallToolRequest :=
  {| Name := "add_task";
     Arguments := {[ "description" := VString "water the plants" ]} |}.

Definition req_short : CallToolRequest :=
  {| Name := "add_task"; Arguments := {[ "description" := VString "ab" ]} |}.

Definition req_list : CallToolRequest :=
  {| Name := "list_tasks"; Arguments := ∅ |}.

Definition check1 : CallToolRequest :=
  {| Name := "check_long_running_task";
     Arguments := {[ "id" := VString "1" ]} |}.

(** The consent proxy after one accepted call whose goroutine has reached
    its [select], *)
Definition hitl_waiting : HITL.state :=
  (HITL.run cel_demo constraints0
     [HITL.EvCall "add_task" req_add; HITL.EvRegister 0%nat] HITL.init).2.

(** and after the approver rejected it and the goroutine finished. *)
Definition hitl_rejected : HITL.state :=
  (HITL.run cel_demo constraints0
     [HITL.EvDecide false (Some 1) up_ok; HITL.EvDone 0%nat] hitl_waiting).2.

(** A config for the long running tasks proxy. *)
Definition lro0 : gset string :=
  LRO.lroMethodsOf
    (LRO.loadConfig [LRO.mkMethodConfig "slow" true;
                     LRO.mkMethodConfig "fast" false]).

End Scenario.

(** ** Vocabulary of the properties *)

Module Spec.

(** The data-model invariant of a task. *)
Definition task_ok (t : LongRunningTask) : Prop :=
  (result t ≠ None ↔ status t = Done)
  ∧ (status t = Pending ∨ status t = Done).

(** A registry together with the set of tasks whose goroutine has not
    finished yet. *)
Definition reg_inv (reg : registry) (live : gset nat) : Prop :=
  (∀ p t, heap reg !! p = Some t →
          task_ok t ∧ (status t = Pending ↔ p ∈ live))
  ∧ (∀ p, p ∈ live → (p < length (heap reg))%nat)
  ∧ (∀ id p, longRunningTasks reg !! id = Some p →
             (p < length (heap reg))%nat).

(** The task [Run] allocates. *)
Definition fresh_task (reg : registry) : LongRunningTask :=
  {| ID := pretty (Z.to_N (AddUint64 (nextID reg) 1));
     status := Pending; result := None |}.

(** In both proxies the live goroutines are the keys of the goroutine
    table, and none of them is about to hand in a nil result. *)
Definition lro_inv (s : LRO.state) : Prop :=
  reg_inv (LRO.tasks s) (dom (LRO.goroutines s))
  ∧ ∀ p, LRO.goroutines s !! p ≠ Some (LRO.Returning None).

Definition hitl_inv (s : HITL.state) : Prop :=
  reg_inv (HITL.tasks s) (dom (HITL.goroutines s))
  ∧ ∀ p, HITL.goroutines s !! p ≠ Some (HITL.Returning None).

(** The consent proxy once a call has passed its constraint. *)
Definition accepted (req : CallToolRequest) (s : HITL.state) : HITL.state :=
  {| HITL.callQueue := HITL.callQueue s;
     HITL.nextCallID := HITL.nextCallID s;
     HITL.tasks := (startLongRunningTask (HITL.tasks s)).2;
     HITL.goroutines :=
       <[length (heap (HITL.tasks s)) := HITL.Registering req]>
         (HITL.goroutines s) |}.


(** The pending-call id an approve or reject request decided, if it did. *)
Definition decided (x : HITL.event * HITL.output) : option Z :=
  match x with
  | (HITL.EvDecide _ (Some id) _, HITL.OutHttp (HITL.Found _)) => Some id
  | (HITL.EvDecide _ (Some id) _, HITL.OutHttp HITL.Blocked) => Some id
  | _ => None
  end.

Definition decisions (tr : list (HITL.event * HITL.output)) : list Z :=
  omap decided tr.

(** The largest value of a 64-bit [int]. *)
Definition MaxInt : Z := 2 ^ 63 - 1.

(** What holds of the queue once the ids [ds] have been decided: ids are
    handed out below [nextCallID], and a decided id is no longer queued. *)
Definition queue_inv (s : HITL.state) (ds : list Z) : Prop :=
  (1 ≤ HITL.nextCallID s)%Z
  ∧ (∀ k, is_Some (HITL.callQueue s !! k) → (1 ≤ k < HITL.nextCallID s)%Z)
  ∧ (∀ k, k ∈ ds →
       (1 ≤ k < HITL.nextCallID s)%Z ∧ HITL.callQueue s !! k = None)
  ∧ NoDup ds.

End Spec.

(** * More of the sources *)

(** ** [generateSessionID], and [mcp/sqlite_mcp/pkg/mcpserver] *)

Module McpServer.
Import SessionManager.

(** [fmt.Sprintf("%d%d%d", time.Now().UnixNano(), rand.Uint64(),
    rand.Uint64())]: the clock reading and the two draws are the
    environment's. *)
Definition generateSessionID (nano : Z) (r1 r2 : N) : string :=
  pretty nano ++ pretty r1 ++ pretty r2.

(** [15*time.Minute], the TTL [New] gives the manager. *)
Definition sessionTTL : Z := 15 * Minute.

(** The manager behind the server [New(dataDir)] builds. *)
Definition New (dataDir : string) : SessionManager :=
  NewSessionManager dataDir sessionTTL.

(** What the driver hands to [rows.Scan] for one column. *)
Inductive SqlValue :=
  | SqlNil
  | SqlBytes (b : string)
  | SqlInt64 (n : Z)
  | SqlFloat64 (bits : Z)
  | SqlBool (b : bool)
  | SqlString (s : string)
  | SqlTime (nano : Z).

(** A result set: what [rows.Columns()] answers, and what [rows.Scan]
    answers for each row [rows.Next()] advances to.  The loop stops when
    [rows.Next()] is false, whatever made it so. *)
Record Rows := mkRows {
  Columns : list string + error;
  scans : list (list SqlValue + error)
}.

(** The two values the handlers hand to [json.Marshal]. *)
Inductive response :=
  | RespSession (sessionID : string)
  | RespOk
  | RespResults (results : list (gmap string SqlValue)).

(** What a handler does: it panics, or returns a result or an error. *)
Inductive handled :=
  | Panic
  | Return (r : CallToolResult + error).

(** The [switch v := raw[i].(type)] of the row loop. *)
Definition cell (v : SqlValue) : SqlValue :=
  match v with
  | SqlNil => SqlNil
  | SqlBytes b => SqlString b
  | v => v
  end.

(** [row[colName] = ...] for every column, in order. *)
Definition rowOf (cols : list string) (raw : list SqlValue)
    : gmap string SqlValue :=
  foldl (λ row cv, <[cv.1 := cell cv.2]> row) ∅ (zip cols raw).

(** The [for rows.Next()] loop. *)
Fixpoint scanAll (cols : list string) (todo : list (list SqlValue + error))
    (results : list (gmap string SqlValue))
    : list (gmap string SqlValue) + error :=
  match todo with
  | [] => inl results
  | inr err :: _ => inr err
  | inl raw :: todo => scanAll cols todo (results ++ [rowOf cols raw])
  end.

(** [args["session"].(string)]: [None] is the panic of the assertion. *)
Definition assertString (v : option Value) : option string :=
  match v with
  | Some (VString s) => Some s
  | _ => None
  end.

Section WithDatabase.
Variable DB : Type.
Variable sql_Open : string → DB + error.
Variable Query : DB → string → Rows + error.
Variable Exec : DB → string → option error.
Variable Marshal : response → string + error.

(** [jsonBytes, _ := json.Marshal(resp)] followed by [string(jsonBytes)]. *)
Definition marshalled (r : response) : string :=
  match Marshal r with
  | inl text => text
  | inr _ => EmptyString
  end.

Definition createDBHandler (sessionID : string) (exec : option error)
    (now : Z) (m : SessionManager) : handled * SessionManager :=
  match CreateDatabase sql_Open sessionID exec now m with
  | (inr err, m') => (Return (inr err), m')
  | (inl sessionID, m') =>
      match Marshal (RespSession sessionID) with
      | inr err => (Return (inr err), m')
      | inl text => (Return (inl (NewToolResultText text)), m')
      end
  end.

(** [runSQLHandler] from [db.Query] on: the statement run on the handle
    the session gave. *)
Definition execSQL (db : DB) (sqlStmt : string) : CallToolResult + error :=
  match Query db sqlStmt with
  | inr _ =>
      match Exec db sqlStmt with
      | Some execErr => inr ("sql error: " ++ execErr)
      | None => inl (NewToolResultText (marshalled RespOk))
      end
  | inl rows =>
      match Columns rows with
      | inr err => inr err
      | inl cols =>
          match scanAll cols (scans rows) [] with
          | inr err => inr err
          | inl results =>
              inl (NewToolResultText (marshalled (RespResults results)))
          end
      end
  end.

Definition runSQLHandler (now : Z) (req : CallToolRequest)
    (m : SessionManager) : handled * SessionManager :=
  match assertString (Arguments req !! "session") with
  | None => (Panic, m)
  | Some session =>
      match assertString (Arguments req !! "sql") with
      | None => (Panic, m)
      | Some sqlStmt =>
          if decide (session = EmptyString ∨ sqlStmt = EmptyString) then
            (Return (inr "missing required parameters 'session' or 'sql'"), m)
          else
            match GetDB sql_Open now m session with
            | (inr err, m') => (Return (inr ("invalid session: " ++ err)), m')
            | (inl db, m') => (Return (execSQL db sqlStmt), m')
            end
      end
  end.

End WithDatabase.

Arguments createDBHandler {DB} sql_Open Marshal sessionID exec now m.
Arguments runSQLHandler {DB} sql_Open Query Exec Marshal now req m.
Arguments execSQL {DB} Query Exec Marshal db sqlStmt.

End McpServer.

(** ** [listPendingCalls] and [mirrorStderr] *)

Module HITLView.
Import HITL.

(** A line of the approval page. *)
Record row := mkRow {
  rowID : Z;
  Tool : string;
  Args : string
}.

(** [listPendingCalls] up to the template: one row per queued call.  Go
    ranges over the map in an unspecified order; [MarshalIndent] is
    [json.MarshalIndent(_, "", "  ")]. *)
Definition listPendingCalls (MarshalIndent : gmap string Value → string)
    (s : state) : list row :=
  (λ pc, {| rowID := pcID pc; Tool := Name (Request pc);
            Args := MarshalIndent (Arguments (Request pc)) |})
    <$> (map_to_list (callQueue s)).*2.

End HITLView.

Module Mirror.







End Mirror.

(** ** Vocabulary of the further properties *)

Module MoreSpec.

(** The counter of [Run] and the ids it has given out: the task at heap
    index [p] was the [(p+1)]-th started, carries that number as its id, and
    is what the [sync.Map] holds under that id. *)
Definition ids_inv (reg : registry) : Prop :=
  nextID reg = Z.of_nat (length (heap reg))
  ∧ (∀ p t, heap reg !! p = Some t →
       ID t = pretty (Z.to_N (Z.of_nat p + 1))
       ∧ longRunningTasks reg !! ID t = Some p)
  ∧ (∀ id p, longRunningTasks reg !! id = Some p →
       ∃ t, heap reg !! p = Some t ∧ ID t = id).

(** The queue holds every id that was issued and not decided, each under
    its own id. *)
Definition queue_full (s : HITL.state) (ds : list Z) : Prop :=
  (∀ k, (1 ≤ k < HITL.nextCallID s)%Z →
        k ∈ ds ∨ is_Some (HITL.callQueue s !! k))
  ∧ (∀ k pc, HITL.callQueue s !! k = Some pc → HITL.pcID pc = k).

(** The only results a task can have when nobody approved anything. *)
Definition unapproved (out : option CallToolResult) : Prop :=
  out = None ∨ out = Some HITL.cancelled
  ∨ out = Some (NewToolResultError "User rejected the request").

Definition quiet (s : HITL.state) : Prop :=
  (∀ p t, heap (HITL.tasks s) !! p = Some t → unapproved (result t))
  ∧ (∀ p out, HITL.goroutines s !! p = Some (HITL.Returning out) →
       unapproved out).

(** A schedule without an approval. *)
Definition no_approval (evs : list HITL.event) : Prop :=
  Forall (λ e, match e with
               | HITL.EvDecide true _ _ => False
               | _ => True
               end) evs.

(** The request that polls task [id]. *)
Definition poll (id : string) : CallToolRequest :=
  {| Name := "check_long_running_task";
     Arguments := {[ "id" := VString id ]} |}.

End MoreSpec.

(** ** Concrete worlds for the rest of the code *)

Module Scenario2.
Import McpServer.

(** A database whose handles are paths, with one table of two users. *)
Definition users : Rows :=
  {| Columns := inl ["id"; "name"];
     scans := [inl [SqlInt64 1; SqlBytes "Alice"];
               inl [SqlInt64 2; SqlBytes "Bob"]] |}.

Definition query_demo (db : string) (sqlStmt : string) : Rows + error :=
  if decide (sqlStmt = "SELECT id, name FROM users ORDER BY id;")
  then inl users else inr "not a query".

Definition exec_demo (db : string) (sqlStmt : string) : option error :=
  if decide (sqlStmt = "INSERT INTO users (name) VALUES ('Alice');")
  then None else Some "syntax error".

(** A stand-in for [json.Marshal] that only names what it was given. *)
Definition marshal_demo (r : response) : string + error :=
  match r with
  | RespSession sessionID => inl ("session " ++ sessionID)
  | RespOk => inl "result ok"
  | RespResults results => inl ("results " ++ pretty (length results))
  end.

Definition req_sql (session sqlStmt : string) : CallToolRequest :=
  {| Name := "run_sql";
     Arguments := {[ "session" := VString session; "sql" := VString sqlStmt ]} |}.

End Scenario2.

(** * Properties *)

(** ** Session manager *)

Module SessionManagerProofs.
Import SessionManager.

Section Lemmas.
Context {DB : Type} (sql_Open : string → DB + error).

Lemma After_true t u : After t u = true ↔ (u < t)%Z.
Proof. unfold After. by rewrite bool_decide_eq_true. Qed.

Lemma After_false t u : After t u = false ↔ (t ≤ u)%Z.
Proof. unfold After. rewrite bool_decide_eq_false. lia. Qed.

Lemma GetDB_unknown now m sid :
  sessions m !! sid = None →
  GetDB sql_Open now m sid = (inr errInvalidSession, m).
Proof. intros H. unfold GetDB. by rewrite H. Qed.

Lemma GetDB_late now m sid info :
  sessions m !! sid = Some info →
  (ExpiresAt info < now)%Z →
  GetDB sql_Open now m sid
  = (inr errSessionExpired, with_sessions m (delete sid)).
Proof.
  intros H Hlt. unfold GetDB. rewrite H.
  apply After_true in Hlt. by rewrite Hlt.
Qed.

Lemma GetDB_live now m sid info :
  sessions m !! sid = Some info →
  (now ≤ ExpiresAt info)%Z →
  GetDB sql_Open now m sid
  = (opened sql_Open (Path info),
     with_sessions m
       (insert sid {| Path := Path info;
                      ExpiresAt := now + expiration m;
                      LastAccess := now |})).
Proof.
  intros H Hle. unfold GetDB, opened, Add. rewrite H.
  apply After_false in Hle. rewrite Hle. simpl.
  by destruct (sql_Open (Path info)).
Qed.




Lemma run_app evs1 evs2 m :
  run sql_Open (evs1 ++ evs2) m
  = (((run sql_Open evs1 m).1 ++ (run sql_Open evs2 (run sql_Open evs1 m).2).1)%list,
     (run sql_Open evs2 (run sql_Open evs1 m).2).2).
Proof.
  revert m. induction evs1 as [|[now e] evs1 IH]; intros m; simpl.
  - by destruct (run sql_Open evs2 m).
  - destruct (step sql_Open now e m) as [o m1]. rewrite IH.
    by destruct (run sql_Open evs1 m1).
Qed.


End Lemmas.

(** C2 (amended): an access made strictly after the deadline of a known
    session answers "session expired", removes exactly that entry from the
    session map, and never hands out a handle. *)
Theorem GetDB_after_deadline {DB : Type} (sql_Open : string → DB + error)
    (now : Z) (m : SessionManager) (sid : string) (info : SessionInfo) :
  sessions m !! sid = Some info →
  (ExpiresAt info < now)%Z →
  (GetDB sql_Open now m sid).1 = inr errSessionExpired
  ∧ (∀ db, (GetDB sql_Open now m sid).1 ≠ inl db)
  ∧ sessions (GetDB sql_Open now m sid).2 = delete sid (sessions m)
  ∧ sessions (GetDB sql_Open now m sid).2 !! sid = None.
Proof.
  intros H Hlt. rewrite (GetDB_late sql_Open now m sid info H Hlt). simpl.
  split; [done|]. split; [discriminate|]. split; [done|].
  apply lookup_delete_eq.
Qed.

Lemma GetDB_after_deadline_witness :
  sessions Scenario.mgr0 !! "s" = Some Scenario.info0
  ∧ (GetDB Scenario.open_ok 101 Scenario.mgr0 "s").1 = inr errSessionExpired
  ∧ sessions (GetDB Scenario.open_ok 101 Scenario.mgr0 "s").2 !! "s" = None.
Proof.
  assert (H : sessions Scenario.mgr0 !! "s" = Some Scenario.info0)
    by apply lookup_insert_eq.
  split; [exact H|].
  destruct (GetDB_after_deadline Scenario.open_ok 101 Scenario.mgr0 "s"
              Scenario.info0 H) as (H1 & _ & _ & H2).
  - simpl. lia.
  - split; [exact H1 | exact H2].
Defined.

(** C2, as stated, fails at [now = expiresAt]: the session is known, the
    clock has reached its deadline, and the access still hands out the
    handle and keeps (renews) the entry. *)
Lemma GetDB_at_deadline_is_valid :
  sessions Scenario.mgr0 !! "s" = Some Scenario.info0
  ∧ (100 >= ExpiresAt Scenario.info0)%Z
  ∧ (GetDB Scenario.open_ok 100 Scenario.mgr0 "s").1
    = inl "/tmp/sqlite_mcp/s.db"
  ∧ sessions (GetDB Scenario.open_ok 100 Scenario.mgr0 "s").2 !! "s"
    = Some {| Path := "/tmp/sqlite_mcp/s.db"; ExpiresAt := 150;
              LastAccess := 100 |}.
Proof.
  assert (H : sessions Scenario.mgr0 !! "s" = Some Scenario.info0)
    by apply lookup_insert_eq.
  split; [exact H|]. split; [simpl; lia|].
  rewrite (GetDB_live Scenario.open_ok 100 Scenario.mgr0 "s" _ H);
    [|simpl; lia].
  simpl. split; [reflexivity|]. by rewrite lookup_insert_eq.
Qed.




(** C9: for a known session that is not yet past its deadline, [GetDB]
    writes [lastAccess] and [expiresAt] before it opens the file; when the
    open fails it returns the wrapped error and the entry stays renewed, so
    the manager is not the one the call started from. *)
Theorem GetDB_open_error_after_renewal {DB : Type}
    (sql_Open : string → DB + error) (now : Z) (m : SessionManager)
    (sid : string) (info : SessionInfo) (err : error) :
  sessions m !! sid = Some info →
  (now ≤ ExpiresAt info)%Z →
  sql_Open (Path info) = inr err →
  (GetDB sql_Open now m sid).1 = inr ("failed to open sqlite db: " ++ err)
  ∧ sessions (GetDB sql_Open now m sid).2 !! sid
    = Some {| Path := Path info; ExpiresAt := now + expiration m;
              LastAccess := now |}
  ∧ (∀ sid', sid' ≠ sid →
       sessions (GetDB sql_Open now m sid).2 !! sid' = sessions m !! sid')
  ∧ (LastAccess info ≠ now ∨ ExpiresAt info ≠ (now + expiration m)%Z →
       (GetDB sql_Open now m sid).2 ≠ m).
Proof.
  intros H Hle Ho. rewrite (GetDB_live sql_Open now m sid info H Hle).
  unfold opened. rewrite Ho. simpl.
  split; [done|]. split; [by rewrite lookup_insert_eq|].
  split; [intros sid' Hne; by rewrite lookup_insert_ne|].
  intros Hd Heq.
  assert (Hl : sessions (with_sessions m
                 (insert sid {| Path := Path info;
                                ExpiresAt := now + expiration m;
                                LastAccess := now |})) !! sid = Some info)
    by (rewrite Heq; exact H).
  simpl in Hl. rewrite lookup_insert_eq in Hl. injection Hl as Hl.
  destruct info as [p e l]. simpl in *.
  injection Hl as He Hl. destruct Hd; congruence.
Qed.

Lemma GetDB_open_error_after_renewal_witness :
  sessions Scenario.mgr0 !! "s" = Some Scenario.info0
  ∧ (GetDB Scenario.open_fails 60 Scenario.mgr0 "s").1
    = inr "failed to open sqlite db: unable to open database file"
  ∧ sessions (GetDB Scenario.open_fails 60 Scenario.mgr0 "s").2 !! "s"
    = Some {| Path := "/tmp/sqlite_mcp/s.db"; ExpiresAt := 110;
              LastAccess := 60 |}.
Proof.
  assert (H : sessions Scenario.mgr0 !! "s" = Some Scenario.info0)
    by apply lookup_insert_eq.
  split; [exact H|].
  destruct (GetDB_open_error_after_renewal Scenario.open_fails 60
              Scenario.mgr0 "s" Scenario.info0
              "unable to open database file" H)
    as (H1 & H2 & _).
  - simpl. lia.
  - reflexivity.
  - split; [exact H1 | exact H2].
Defined.

End SessionManagerProofs.

(** ** Task engine *)

Module TaskEngineProofs.
Import Spec.

Lemma startLongRunningTask_eq reg :
  startLongRunningTask reg
  = (started (ID (fresh_task reg)), length (heap reg),
     {| heap := heap reg ++ [fresh_task reg];
        longRunningTasks :=
          <[ID (fresh_task reg) := length (heap reg)]> (longRunningTasks reg);
        nextID := AddUint64 (nextID reg) 1 |}).
Proof.
  unfold startLongRunningTask, Run, Store. simpl.
  by rewrite list_lookup_middle.
Qed.

Lemma fresh_task_ok reg : task_ok (fresh_task reg).
Proof. unfold task_ok, fresh_task, Pending, Done. simpl. split; [split|]; auto; done. Qed.

Lemma finish_ok t out : out ≠ None → task_ok (finish t out).
Proof. intros H. unfold task_ok, finish. simpl. split; [split|]; auto. Qed.

(** Starting a task adds one pending task with a live goroutine and leaves
    the others alone. *)
Lemma reg_inv_start reg live :
  reg_inv reg live →
  reg_inv (startLongRunningTask reg).2 ({[ length (heap reg) ]} ∪ live).
Proof.
  intros (Ht & Hl & Hm). rewrite startLongRunningTask_eq.
  split; [|split]; simpl.
  - intros p t Hp.
    destruct (decide (p = length (heap reg))) as [->|Hne].
    + rewrite list_lookup_middle in Hp by done. injection Hp as <-.
      split; [apply fresh_task_ok|]. simpl.
      split; [intros _; apply elem_of_union_l, elem_of_singleton; done|done].
    + assert (Hlt : (p < length (heap reg))%nat).
      { apply lookup_lt_Some in Hp. rewrite length_app in Hp. simpl in Hp. lia. }
      rewrite lookup_app_l in Hp by done.
      destruct (Ht p t Hp) as [Hok Hiff]. split; [done|].
      rewrite Hiff, elem_of_union, elem_of_singleton. tauto.
  - intros p Hp. rewrite length_app. simpl.
    apply elem_of_union in Hp as [Hp|Hp].
    + apply elem_of_singleton in Hp. lia.
    + specialize (Hl p Hp). lia.
  - intros id p Hp. rewrite length_app. simpl.
    destruct (decide (ID (fresh_task reg) = id)) as [<-|Hne].
    + rewrite lookup_insert_eq in Hp. injection Hp as <-. lia.
    + rewrite lookup_insert_ne in Hp by done. specialize (Hm id p Hp). lia.
Qed.

(** The goroutine of task [p] hands in a non-nil result. *)
Lemma reg_inv_complete reg live p out :
  reg_inv reg live → out ≠ None →
  reg_inv (complete p out reg) (live ∖ {[ p ]}).
Proof.
  intros (Ht & Hl & Hm) Hout. split; [|split]; simpl.
  - intros q t Hq. destruct (decide (p = q)) as [->|Hne].
    + rewrite list_lookup_alter_eq in Hq.
      destruct (heap reg !! q) as [t0|]; [|done]. injection Hq as <-.
      split; [by apply finish_ok|]. simpl.
      rewrite elem_of_difference, elem_of_singleton. split; [done|].
      intros [_ Hn]. done.
    + rewrite list_lookup_alter_ne in Hq by done.
      destruct (Ht q t Hq) as [Hok Hiff]. split; [done|].
      rewrite Hiff, elem_of_difference, elem_of_singleton.
      intuition congruence.
  - intros q Hq. rewrite length_alter. apply Hl.
    by apply elem_of_difference in Hq as [Hq _].
  - intros id q Hq. rewrite length_alter. by apply (Hm id).
Qed.

(** A finished task is out of reach of both operations. *)
Lemma start_keeps reg p t :
  heap reg !! p = Some t → heap (startLongRunningTask reg).2 !! p = Some t.
Proof.
  intros H. rewrite startLongRunningTask_eq. simpl. by apply lookup_app_l_Some.
Qed.

Lemma complete_keeps reg live p q t out :
  reg_inv reg live → q ∈ live →
  heap reg !! p = Some t → status t = Done →
  heap (complete q out reg) !! p = Some t.
Proof.
  intros (Ht & _ & _) Hq Hp Hd. simpl.
  destruct (decide (q = p)) as [->|Hne].
  - destruct (Ht p t Hp) as [_ Hiff]. apply Hiff in Hq. unfold Done, Pending in *. congruence.
  - by rewrite list_lookup_alter_ne.
Qed.

Lemma reg_inv_empty : reg_inv empty_registry ∅.
Proof.
  split; [intros p t H; done|]. split.
  - intros p Hp. by apply not_elem_of_empty in Hp.
  - intros id p Hp. simpl in Hp. by rewrite lookup_empty in Hp.
Qed.

(** In a registry that satisfies the invariant the status check finds the
    task its id points to, in one of the two states it knows. *)
Lemma check_returns reg live r :
  reg_inv reg live → checkLongRunningTaskHandler r reg ≠ Panicked.
Proof.
  intros (Ht & _ & Hm). unfold checkLongRunningTaskHandler.
  destruct (RequireString r "id") as [id|err]; [|done].
  destruct (longRunningTasks reg !! id) as [p|] eqn:E; [|done].
  destruct (lookup_lt_is_Some_2 _ _ (Hm id p E)) as [t Hp]. rewrite Hp.
  destruct (Ht p t Hp) as [[_ [Hs|Hs]] _]; unfold Status.
  - by rewrite decide_True.
  - rewrite decide_False by (rewrite Hs; done). by rewrite decide_True.
Qed.

Lemma check_unchanged_lro lro r s n :
  LRO.run lro (replicate n (LRO.EvCheck r)) s = s.
Proof. induction n as [|n IH]; [done|]. exact IH. Qed.

Lemma check_unchanged_hitl cel constraints r s n :
  HITL.run cel constraints (replicate n (HITL.EvCheck r)) s
  = (replicate n (HITL.EvCheck r,
                  HITL.OutCheck (checkLongRunningTaskHandler r (HITL.tasks s))),
     s).
Proof. induction n as [|n IH]; [done|]. simpl. by rewrite IH. Qed.

End TaskEngineProofs.

(** ** The long running tasks proxy *)

Module LROProofs.
Import Spec TaskEngineProofs LRO.

Lemma lro_inv_init : lro_inv init.
Proof.
  split; simpl; [rewrite dom_empty_L; apply reg_inv_empty|].
  intros p. by rewrite lookup_empty.
Qed.

Lemma start_inv (s : state) (req : CallToolRequest) :
  lro_inv s →
  lro_inv {| tasks := (startLongRunningTask (tasks s)).2;
         goroutines := <[length (heap (tasks s)) := Forwarding req]> (goroutines s) |}.
Proof.
  intros [Hr Hn]. split; simpl.
  - rewrite dom_insert_L. by apply reg_inv_start.
  - intros p. destruct (decide (length (heap (tasks s)) = p)) as [<-|Hne].
    + by rewrite lookup_insert_eq.
    + rewrite lookup_insert_ne by done. apply Hn.
Qed.

Lemma proxyHandler_lro lroMethods toolName CallTool req s :
  toolName ∈ lroMethods →
  proxyHandler lroMethods toolName CallTool req s
  = (inl (started (ID (fresh_task (tasks s)))),
     {| tasks := (startLongRunningTask (tasks s)).2;
        goroutines := <[length (heap (tasks s)) := Forwarding req]> (goroutines s) |}).
Proof.
  intros Hin. unfold proxyHandler. rewrite decide_True by done.
  by rewrite startLongRunningTask_eq.
Qed.

Lemma proxyHandler_direct lroMethods toolName CallTool req s :
  toolName ∉ lroMethods →
  proxyHandler lroMethods toolName CallTool req s
  = (match CallTool req with
     | inr err => inl (NewToolResultError ("forward error: " ++ err))
     | inl res => inl res
     end, s).
Proof.
  intros Hin. unfold proxyHandler. rewrite decide_False by done.
  by destruct (CallTool req).
Qed.

Lemma lro_step_inv lroMethods e s : lro_inv s → lro_inv (step lroMethods e s).
Proof.
  intros Hi. destruct e as [name req CallTool|req|p CallTool|p]; simpl.
  - destruct (decide (name ∈ lroMethods)) as [Hin|Hin].
    + rewrite proxyHandler_lro by done. by apply start_inv.
    + by rewrite proxyHandler_direct.
  - done.
  - destruct (goroutines s !! p) as [[req|out]|] eqn:E; try done.
    destruct Hi as [Hr Hn]. split; simpl.
    + by rewrite dom_insert_lookup_L.
    + intros q. destruct (decide (p = q)) as [<-|Hne].
      * rewrite lookup_insert_eq. unfold work. by destruct (CallTool req).
      * rewrite lookup_insert_ne by done. apply Hn.
  - destruct (goroutines s !! p) as [[req|out]|] eqn:E; try done.
    destruct Hi as [Hr Hn]. split; simpl.
    + rewrite dom_delete_L. apply reg_inv_complete; [done|].
      intros ->. by apply (Hn p).
    + intros q. destruct (decide (p = q)) as [<-|Hne].
      * by rewrite lookup_delete_eq.
      * rewrite lookup_delete_ne by done. apply Hn.
Qed.

Lemma lro_step_keeps_done lroMethods e s p t :
  lro_inv s → heap (tasks s) !! p = Some t → status t = Done →
  heap (tasks (step lroMethods e s)) !! p = Some t.
Proof.
  intros [Hr Hn] Hp Hd. destruct e as [name req CallTool|req|q CallTool|q]; simpl.
  - destruct (decide (name ∈ lroMethods)) as [Hin|Hin].
    + rewrite proxyHandler_lro by done. simpl. by apply start_keeps.
    + by rewrite proxyHandler_direct.
  - done.
  - by destruct (goroutines s !! q) as [[req|out]|].
  - destruct (goroutines s !! q) as [[req|out]|] eqn:E; try done. simpl.
    apply (complete_keeps _ (dom (goroutines s))); try done.
    apply elem_of_dom. by rewrite E.
Qed.

Lemma lro_run_inv lroMethods evs s : lro_inv s → lro_inv (run lroMethods evs s).
Proof.
  revert s. induction evs as [|e evs IH]; intros s Hi; [done|].
  apply IH. by apply lro_step_inv.
Qed.

Lemma lro_run_keeps_done lroMethods evs s p t :
  lro_inv s → heap (tasks s) !! p = Some t → status t = Done →
  heap (tasks (run lroMethods evs s)) !! p = Some t.
Proof.
  revert s. induction evs as [|e evs IH]; intros s Hi Hp Hd; [done|].
  apply IH; [by apply lro_step_inv|by apply lro_step_keeps_done|done].
Qed.

(** A pending task can always be finished: its goroutine is still there. *)
Lemma lro_can_finish lroMethods s p t :
  lro_inv s → heap (tasks s) !! p = Some t → status t = Pending →
  ∃ evs t', heap (tasks (run lroMethods evs s)) !! p = Some t'
            ∧ status t' = Done ∧ ID t' = ID t.
Proof.
  intros [(Ht & Hl & Hm) Hn] Hp Hs.
  destruct (Ht p t Hp) as [_ Hlive]. apply Hlive, elem_of_dom in Hs.
  destruct Hs as [g Hg].
  assert (Hfin : ∀ s' out, goroutines s' !! p = Some (Returning out) →
            heap (tasks s') !! p = Some t →
            ∃ t', heap (tasks (step lroMethods (EvDone p) s')) !! p = Some t'
                  ∧ status t' = Done ∧ ID t' = ID t).
  { intros s' out Hg' Hp'. simpl. rewrite Hg'. simpl.
    rewrite list_lookup_alter_eq, Hp'. simpl. eauto. }
  destruct g as [req|out].
  - exists [EvWork p (λ _, inr EmptyString); EvDone p]. simpl.
    apply (Hfin _ (work (λ _, inr EmptyString) req)).
    + simpl. rewrite Hg. simpl. by rewrite lookup_insert_eq.
    + simpl. by rewrite Hg.
  - exists [EvDone p]. simpl. by apply (Hfin s out).
Qed.





End LROProofs.

(** ** The consent proxy *)

Module HITLProofs.
Import Spec TaskEngineProofs HITL.

Section Lemmas.
Variable cel : string → gmap string Value → celRun.
Variable constraints : gmap string string.

Lemma hitl_inv_init : hitl_inv init.
Proof.
  split; simpl; [rewrite dom_empty_L; apply reg_inv_empty|].
  intros p. by rewrite lookup_empty.
Qed.

Lemma consentProxyHandler_eq req toolName expr s :
  consentProxyHandler cel req toolName expr s
  = match evalConstraint cel expr (GetArguments req) with
    | inr err =>
        (NewToolResultError ("constraint failed to evaluate: " ++ err), s)
    | inl false => (NewToolResultError "constraint returned false", s)
    | inl true => (started (ID (fresh_task (tasks s))), accepted req s)
    end.
Proof.
  unfold consentProxyHandler, accepted.
  destruct (evalConstraint cel expr (GetArguments req)) as [[|]|err]; try done.
  by rewrite startLongRunningTask_eq.
Qed.

Lemma accepted_inv req s : hitl_inv s → hitl_inv (accepted req s).
Proof.
  intros [Hr Hn]. split; simpl.
  - rewrite dom_insert_L. by apply reg_inv_start.
  - intros p. destruct (decide (length (heap (tasks s)) = p)) as [<-|Hne].
    + by rewrite lookup_insert_eq.
    + rewrite lookup_insert_ne by done. apply Hn.
Qed.

(** Moving a goroutine that exists to a state that is not "returning nil"
    keeps the invariant. *)
Lemma set_goroutine_inv s p g :
  hitl_inv s → is_Some (goroutines s !! p) → g ≠ Returning None →
  hitl_inv (set_goroutines s (<[p := g]> (goroutines s))).
Proof.
  intros [Hr Hn] Hs Hg. split; simpl.
  - by rewrite dom_insert_lookup_L.
  - intros q. destruct (decide (p = q)) as [<-|Hne].
    + rewrite lookup_insert_eq. congruence.
    + rewrite lookup_insert_ne by done. apply Hn.
Qed.

Lemma queue_only_inv s q n :
  hitl_inv s →
  hitl_inv {| callQueue := q; nextCallID := n; tasks := tasks s;
         goroutines := goroutines s |}.
Proof. intros [Hr Hn]. by split. Qed.

Lemma send_inv c v s : hitl_inv s → hitl_inv (send c v s).2.
Proof.
  intros Hi. unfold send.
  destruct (goroutines s !! c) as [[req|pc|out]|] eqn:E; try done.
  simpl. apply set_goroutine_inv; [done|by rewrite E|done].
Qed.

Lemma send_tasks c v s : tasks (send c v s).2 = tasks s.
Proof.
  unfold send. by destruct (goroutines s !! c) as [[req|pc|out]|].
Qed.

Lemma send_queue c v s :
  callQueue (send c v s).2 = callQueue s
  ∧ nextCallID (send c v s).2 = nextCallID s.
Proof.
  unfold send. by destruct (goroutines s !! c) as [[req|pc|out]|].
Qed.

Lemma handleApproval_eq approve id CallTool s :
  handleApproval approve (Some id) CallTool s
  = match callQueue s !! id with
    | None => (NotFound "Not found", (lookupAndDelete id s).2)
    | Some pc =>
        let r := send (ResponseC pc) (decision approve CallTool pc)
                   (lookupAndDelete id s).2 in
        (if r.1 then Found "/" else Blocked, r.2)
    end.
Proof.
  unfold handleApproval, lookupAndDelete.
  destruct (callQueue s !! id) as [pc|]; [|done].
  by destruct (send _ _ _) as [[|] s2].
Qed.

Lemma handleApproval_inv approve id CallTool s :
  hitl_inv s → hitl_inv (handleApproval approve id CallTool s).2.
Proof.
  intros Hi. destruct id as [id|]; [|done].
  rewrite handleApproval_eq.
  destruct (callQueue s !! id) as [pc|]; simpl.
  - apply send_inv. by apply queue_only_inv.
  - by apply queue_only_inv.
Qed.

Lemma handleApproval_tasks approve id CallTool s :
  tasks (handleApproval approve id CallTool s).2 = tasks s.
Proof.
  destruct id as [id|]; [|done]. rewrite handleApproval_eq.
  destruct (callQueue s !! id) as [pc|]; simpl; [|done].
  by rewrite send_tasks.
Qed.

Lemma hitl_step_inv e s : hitl_inv s → hitl_inv (step cel constraints e s).2.
Proof.
  intros Hi. destruct e as [name req|req|p|p|p|approve id CallTool]; simpl.
  - unfold toolHandler. rewrite consentProxyHandler_eq.
    destruct (evalConstraint _ _ _) as [[|]|err]; simpl; try done.
    by apply accepted_inv.
  - done.
  - destruct (goroutines s !! p) as [[req|pc|out]|] eqn:E; try done.
    simpl. apply (set_goroutine_inv
      {| callQueue := _; nextCallID := _; tasks := tasks s;
         goroutines := goroutines s |}); simpl;
      [by apply queue_only_inv|by rewrite E|done].
  - destruct (goroutines s !! p) as [[req|pc|out]|] eqn:E; try done.
    simpl. apply set_goroutine_inv; [done|by rewrite E|done].
  - destruct (goroutines s !! p) as [[req|pc|out]|] eqn:E; try done.
    destruct Hi as [Hr Hn]. split; simpl.
    + rewrite dom_delete_L. apply reg_inv_complete; [done|].
      intros ->. by apply (Hn p).
    + intros q. destruct (decide (p = q)) as [<-|Hne].
      * by rewrite lookup_delete_eq.
      * rewrite lookup_delete_ne by done. apply Hn.
  - pose proof (handleApproval_inv approve id CallTool s Hi).
    by destruct (handleApproval approve id CallTool s).
Qed.

Lemma hitl_step_keeps_done e s p t :
  hitl_inv s → heap (tasks s) !! p = Some t → status t = Done →
  heap (tasks (step cel constraints e s).2) !! p = Some t.
Proof.
  intros [Hr Hn] Hp Hd.
  destruct e as [name req|req|q|q|q|approve id CallTool]; simpl.
  - unfold toolHandler. rewrite consentProxyHandler_eq.
    destruct (evalConstraint _ _ _) as [[|]|err]; simpl; try done.
    by apply lookup_app_l_Some.
  - done.
  - by destruct (goroutines s !! q) as [[req|pc|out]|].
  - by destruct (goroutines s !! q) as [[req|pc|out]|].
  - destruct (goroutines s !! q) as [[req|pc|out]|] eqn:E; try done. simpl.
    apply (complete_keeps _ (dom (goroutines s))); try done.
    apply elem_of_dom. by rewrite E.
  - pose proof (handleApproval_tasks approve id CallTool s) as Ht.
    destruct (handleApproval approve id CallTool s). simpl in *. by rewrite Ht.
Qed.

Lemma run_cons e evs s :
  run cel constraints (e :: evs) s
  = ((e, (step cel constraints e s).1)
       :: (run cel constraints evs (step cel constraints e s).2).1,
     (run cel constraints evs (step cel constraints e s).2).2).
Proof.
  change (run cel constraints (e :: evs) s)
    with (let '(o, s1) := step cel constraints e s in
          let '(tr, s2) := run cel constraints evs s1 in ((e, o) :: tr, s2)).
  destruct (step cel constraints e s) as [o s1]. cbn [fst snd].
  by destruct (run cel constraints evs s1).
Qed.

Lemma hitl_run_inv evs s : hitl_inv s → hitl_inv (run cel constraints evs s).2.
Proof.
  revert s. induction evs as [|e evs IH]; intros s Hi; [done|].
  rewrite run_cons. simpl. apply IH. by apply hitl_step_inv.
Qed.

Lemma hitl_run_keeps_done evs s p t :
  hitl_inv s → heap (tasks s) !! p = Some t → status t = Done →
  heap (tasks (run cel constraints evs s).2) !! p = Some t.
Proof.
  revert s. induction evs as [|e evs IH]; intros s Hi Hp Hd; [done|].
  rewrite run_cons. simpl.
  apply IH; [by apply hitl_step_inv|by apply hitl_step_keeps_done|done].
Qed.

(** A pending task can always be finished: at the latest when the context
    of its call is cancelled. *)
Lemma hitl_can_finish s p t :
  hitl_inv s → heap (tasks s) !! p = Some t → status t = Pending →
  ∃ evs t', heap (tasks (run cel constraints evs s).2) !! p = Some t'
            ∧ status t' = Done ∧ ID t' = ID t.
Proof.
  intros [(Ht & Hl & Hm) Hn] Hp Hs.
  destruct (Ht p t Hp) as [_ Hlive]. apply Hlive, elem_of_dom in Hs.
  destruct Hs as [g Hg].
  assert (Hfin : ∀ s' out, goroutines s' !! p = Some (Returning out) →
            heap (tasks s') !! p = Some t →
            ∃ t', heap (tasks (step cel constraints (EvDone p) s').2) !! p
                  = Some t'
                  ∧ status t' = Done ∧ ID t' = ID t).
  { intros s' out Hg' Hp'. simpl. rewrite Hg'. simpl.
    rewrite list_lookup_alter_eq, Hp'. simpl. eauto. }
  assert (Hsel : ∀ s' pc, goroutines s' !! p = Some (Selecting pc) →
            heap (tasks s') !! p = Some t →
            ∃ t', heap (tasks (step cel constraints (EvDone p)
                                 (step cel constraints (EvCtxDone p) s').2).2)
                    !! p = Some t'
                  ∧ status t' = Done ∧ ID t' = ID t).
  { intros s' pc Hg' Hp'. apply (Hfin _ (Some cancelled)).
    - simpl. rewrite Hg'. simpl. by rewrite lookup_insert_eq.
    - simpl. by rewrite Hg'. }
  destruct g as [req|pc|out].
  - exists [EvRegister p; EvCtxDone p; EvDone p].
    rewrite !run_cons. cbn [fst snd run].
    apply (Hsel _ {| pcID := nextCallID s; Request := req; ResponseC := p |}).
    + simpl. rewrite Hg. simpl. by rewrite lookup_insert_eq.
    + simpl. by rewrite Hg.
  - exists [EvCtxDone p; EvDone p]. rewrite !run_cons. cbn [fst snd run].
    by apply (Hsel s pc).
  - exists [EvDone p]. rewrite !run_cons. cbn [fst snd run].
    by apply (Hfin s out).
Qed.

Lemma incr_int_small n : (1 ≤ n < MaxInt)%Z → incr_int n = (n + 1)%Z.
Proof.
  unfold MaxInt, incr_int. intros H.
  rewrite Z.mod_small by lia. lia.
Qed.

Lemma lookupAndDelete_absent id s :
  callQueue s !! id = None → (lookupAndDelete id s).2 = s.
Proof.
  intros H. unfold lookupAndDelete. destruct s as [q n t g]. simpl in *.
  by rewrite delete_id.
Qed.

Lemma queue_inv_same s s' ds :
  callQueue s' = callQueue s → nextCallID s' = nextCallID s →
  queue_inv s ds → queue_inv s' ds.
Proof. unfold queue_inv. by intros -> ->. Qed.

Lemma queue_inv_register s ds p req :
  queue_inv s ds → (nextCallID s < MaxInt)%Z →
  queue_inv (register p req s).2 ds
  ∧ nextCallID (register p req s).2 = (nextCallID s + 1)%Z.
Proof.
  intros (H1 & Hq & Hd & Hn) Hlt. unfold register, queue_inv. simpl.
  rewrite incr_int_small by lia. split; [|done].
  split; [lia|]. split; [|split; [|done]].
  - intros k Hk. destruct (decide (nextCallID s = k)) as [<-|Hne]; [lia|].
    rewrite lookup_insert_ne in Hk by done. specialize (Hq k Hk). lia.
  - intros k Hk. destruct (Hd k Hk) as [Hr Hnone]. split; [lia|].
    rewrite lookup_insert_ne by lia. done.
Qed.

Lemma queue_inv_decide s ds id pc :
  queue_inv s ds → callQueue s !! id = Some pc →
  queue_inv (lookupAndDelete id s).2 (ds ++ [id]).
Proof.
  intros (H1 & Hq & Hd & Hn) Hpc. unfold lookupAndDelete, queue_inv. simpl.
  split; [done|]. split; [|split].
  - intros k Hk. destruct (decide (id = k)) as [<-|Hne].
    + rewrite lookup_delete_eq in Hk. by destruct Hk.
    + rewrite lookup_delete_ne in Hk by done. by apply Hq.
  - intros k Hk. apply elem_of_app in Hk as [Hk|Hk].
    + destruct (Hd k Hk) as [Hr Hnone]. split; [done|].
      destruct (decide (id = k)) as [<-|Hne]; [congruence|].
      by rewrite lookup_delete_ne.
    + apply list_elem_of_singleton in Hk as ->. split.
      * apply Hq. by rewrite Hpc.
      * apply lookup_delete_eq.
  - apply NoDup_app. split; [done|]. split; [|apply NoDup_singleton].
    intros k Hk Hk'. apply list_elem_of_singleton in Hk' as ->.
    destruct (Hd id Hk) as [_ Hnone]. congruence.
Qed.

(** One event: the decided ids grow by what the event decided, and the id
    counter moves by at most one. *)
Lemma step_queue_inv e s ds :
  queue_inv s ds → (nextCallID s < MaxInt)%Z →
  queue_inv (step cel constraints e s).2
    (ds ++ option_list (decided (e, (step cel constraints e s).1)))
  ∧ (nextCallID (step cel constraints e s).2 ≤ nextCallID s + 1)%Z.
Proof.
  intros Hi Hlt.
  destruct e as [name req|req|p|p|p|approve id CallTool]; simpl.
  - unfold toolHandler. rewrite consentProxyHandler_eq.
    rewrite app_nil_r.
    destruct (evalConstraint _ _ _) as [[|]|err]; simpl;
      (split; [by apply (queue_inv_same s)|lia]).
  - rewrite app_nil_r. split; [done|lia].
  - rewrite app_nil_r.
    destruct (goroutines s !! p) as [[req|pc|out]|] eqn:E; simpl;
      try (split; [done|lia]).
    destruct (queue_inv_register s ds p req Hi Hlt) as [Hq Hn].
    split; [|simpl in *; lia]. by apply (queue_inv_same (register p req s).2).
  - rewrite app_nil_r.
    destruct (goroutines s !! p) as [[req|pc|out]|]; simpl;
      (split; [by apply (queue_inv_same s)|lia]).
  - rewrite app_nil_r.
    destruct (goroutines s !! p) as [[req|pc|out]|]; simpl;
      (split; [by apply (queue_inv_same s)|lia]).
  - destruct id as [id|]; [|simpl; rewrite app_nil_r; split; [done|lia]].
    rewrite handleApproval_eq.
    destruct (callQueue s !! id) as [pc|] eqn:E; simpl.
    + destruct (send_queue (ResponseC pc) (decision approve CallTool pc)
                  (lookupAndDelete id s).2) as [Sq Sn].
      destruct (send _ _ _) as [[|] s2]; simpl in *.
      * split; [|lia].
        apply (queue_inv_same (lookupAndDelete id s).2); try done.
        by apply (queue_inv_decide s ds id pc).
      * split; [|lia].
        apply (queue_inv_same (lookupAndDelete id s).2); try done.
        by apply (queue_inv_decide s ds id pc).
    + rewrite app_nil_r. split; [|lia].
      destruct s as [q n t g]. simpl in *. by rewrite delete_id.
Qed.

Lemma run_queue_inv evs s ds :
  queue_inv s ds → (nextCallID s + Z.of_nat (length evs) ≤ MaxInt)%Z →
  queue_inv (run cel constraints evs s).2
    (ds ++ decisions (run cel constraints evs s).1).
Proof.
  revert s ds. induction evs as [|e evs IH]; intros s ds Hi Hb.
  - simpl. by rewrite app_nil_r.
  - rewrite run_cons. cbn [fst snd length] in *.
    destruct (step_queue_inv e s ds Hi) as [Hq Hn]; [lia|].
    specialize (IH _ _ Hq).
    unfold decisions in *. cbn [omap list_omap].
    destruct (decided (e, (step cel constraints e s).1)) as [k|];
      cbn [option_list] in *.
    + rewrite <- app_assoc in IH. apply IH. lia.
    + rewrite app_nil_r in IH. apply IH. lia.
Qed.

Lemma queue_inv_init : queue_inv init [].
Proof.
  unfold queue_inv, init. simpl. split; [lia|]. split; [|split].
  - intros k Hk. rewrite lookup_empty in Hk. by destruct Hk.
  - intros k Hk. by apply not_elem_of_nil in Hk.
  - apply NoDup_nil. done.
Qed.

End Lemmas.

(** C1: [handleApproval] reads and deletes the entry of [id] in one critical
    section, and whatever it sends is sent from the state in which [id] is
    already gone; when [id] is not queued it answers "Not found" and changes
    nothing.  Hence a second approve or reject of the same id, right after
    the first, answers "Not found", and in every schedule of the proxy (as
    long as the [int] counter has not run out) no id is decided twice. *)
Theorem handleApproval_decides_once
    (cel : string → gmap string Value → celRun)
    (constraints : gmap string string) (evs : list event) (s : state)
    (id : Z) (approve approve' : bool) (CallTool CallTool' : upstream) :
  (Z.of_nat (length evs) < MaxInt)%Z →
  (lookupAndDelete id s).1 = callQueue s !! id
  ∧ callQueue (lookupAndDelete id s).2 !! id = None
  ∧ handleApproval approve (Some id) CallTool s
    = match callQueue s !! id with
      | None => (NotFound "Not found", s)
      | Some pc =>
          let r := send (ResponseC pc) (decision approve CallTool pc)
                     (lookupAndDelete id s).2 in
          (if r.1 then Found "/" else Blocked, r.2)
      end
  ∧ callQueue (handleApproval approve (Some id) CallTool s).2 !! id = None
  ∧ handleApproval approve' (Some id) CallTool'
      (handleApproval approve (Some id) CallTool s).2
    = (NotFound "Not found", (handleApproval approve (Some id) CallTool s).2)
  ∧ NoDup (decisions (run cel constraints evs init).1).
Proof.
  intros Hlen.
  assert (Hgone : callQueue (handleApproval approve (Some id) CallTool s).2
                    !! id = None).
  { rewrite handleApproval_eq.
    destruct (callQueue s !! id) as [pc|]; cbv zeta; cbn [snd].
    - destruct (send_queue (ResponseC pc) (decision approve CallTool pc)
                  (lookupAndDelete id s).2) as [-> _].
      apply lookup_delete_eq.
    - apply lookup_delete_eq. }
  split; [done|]. split; [apply lookup_delete_eq|]. split; [|split; [done|split]].
  - rewrite handleApproval_eq.
    destruct (callQueue s !! id) as [pc|] eqn:E; [done|].
    by rewrite lookupAndDelete_absent.
  - rewrite (handleApproval_eq approve' id CallTool'). rewrite Hgone.
    by rewrite lookupAndDelete_absent.
  - pose proof (run_queue_inv cel constraints evs init [] queue_inv_init)
      as (_ & _ & _ & Hn).
    + unfold MaxInt in *. simpl. lia.
    + exact Hn.
Qed.

Lemma handleApproval_decides_once_witness :
  let evs := [EvCall "add_task" Scenario.req_add; EvRegister 0%nat;
              EvDecide false (Some 1) Scenario.up_ok;
              EvDecide true (Some 1) Scenario.up_ok] in
  (Z.of_nat (length evs) < MaxInt)%Z
  ∧ handleApproval true (Some 1) Scenario.up_ok
      (handleApproval false (Some 1) Scenario.up_ok Scenario.hitl_waiting).2
    = (NotFound "Not found",
       (handleApproval false (Some 1) Scenario.up_ok Scenario.hitl_waiting).2)
  ∧ NoDup (decisions
             (run Scenario.cel_demo Scenario.constraints0 evs init).1).
Proof.
  intros evs.
  assert (Hlen : (Z.of_nat (length evs) < MaxInt)%Z) by (vm_compute; reflexivity).
  split; [exact Hlen|].
  destruct (handleApproval_decides_once Scenario.cel_demo
              Scenario.constraints0 evs Scenario.hitl_waiting 1 false true
              Scenario.up_ok Scenario.up_ok Hlen)
    as (_ & _ & _ & _ & H1 & H2).
  split; [exact H1 | exact H2].
Defined.



(** C6: when the constraint of a call evaluates to false, or does not
    evaluate, the handler returns at once the error result "constraint
    returned false" or "constraint failed to evaluate: <err>", and the
    proxy's state is the one it started from: no task, no task id, no
    goroutine and no queue entry has been made. *)
Theorem consentProxyHandler_rejects
    (cel : string → gmap string Value → celRun) (req : CallToolRequest)
    (toolName constraintExpr : string) (s : state) :
  evalConstraint cel constraintExpr (GetArguments req) ≠ inl true →
  (consentProxyHandler cel req toolName constraintExpr s).2 = s
  ∧ (consentProxyHandler cel req toolName constraintExpr s).1
    = match evalConstraint cel constraintExpr (GetArguments req) with
      | inr err => NewToolResultError ("constraint failed to evaluate: " ++ err)
      | inl _ => NewToolResultError "constraint returned false"
      end
  ∧ IsError (consentProxyHandler cel req toolName constraintExpr s).1 = true
  ∧ callQueue (consentProxyHandler cel req toolName constraintExpr s).2
    = callQueue s
  ∧ nextID (tasks (consentProxyHandler cel req toolName constraintExpr s).2)
    = nextID (tasks s).
Proof.
  intros Hne. rewrite consentProxyHandler_eq.
  destruct (evalConstraint cel constraintExpr (GetArguments req))
    as [[|]|err]; done.
Qed.

Lemma consentProxyHandler_rejects_witness :
  evalConstraint Scenario.cel_demo "args.description.size() > 3"
    (GetArguments Scenario.req_short) = inl false
  ∧ consentProxyHandler Scenario.cel_demo Scenario.req_short "add_task"
      "args.description.size() > 3" init
    = (NewToolResultError "constraint returned false", init).
Proof.
  assert (He : evalConstraint Scenario.cel_demo "args.description.size() > 3"
                 (GetArguments Scenario.req_short) = inl false)
    by (vm_compute; reflexivity).
  split; [exact He|].
  destruct (consentProxyHandler_rejects Scenario.cel_demo Scenario.req_short
              "add_task" "args.description.size() > 3" init)
    as (H1 & H2 & _).
  - rewrite He. discriminate.
  - rewrite He in H2.
    destruct (consentProxyHandler Scenario.cel_demo Scenario.req_short
                "add_task" "args.description.size() > 3" init) as [r s'].
    simpl in *. by rewrite H1, H2.
Defined.

(** C10: the empty constraint expression evaluates to true whatever the
    arguments and whatever the expression engine would do, so the handler
    of a tool that has no entry in the constraints file starts a task for
    the call, and the critical section of that task's goroutine puts the
    call in the approval queue under the next id. *)
Theorem evalConstraint_empty
    (cel cel' : string → gmap string Value → celRun)
    (constraints : gmap string string) (name : string)
    (req : CallToolRequest) (args args' : gmap string Value) (s : state) :
  constraints !! name = None →
  evalConstraint cel EmptyString args = inl true
  ∧ evalConstraint cel EmptyString args = evalConstraint cel' EmptyString args'
  ∧ constraintFor constraints name = EmptyString
  ∧ toolHandler cel constraints name req s
    = (started (ID (fresh_task (tasks s))), accepted req s)
  ∧ goroutines (accepted req s) !! length (heap (tasks s))
    = Some (Registering req)
  ∧ callQueue (step cel constraints (EvRegister (length (heap (tasks s))))
                 (accepted req s)).2 !! nextCallID s
    = Some {| pcID := nextCallID s; Request := req;
              ResponseC := length (heap (tasks s)) |}.
Proof.
  intros Hc.
  assert (Hf : constraintFor constraints name = EmptyString)
    by (unfold constraintFor; by rewrite Hc).
  split; [done|]. split; [done|]. split; [done|]. split; [|split].
  - unfold toolHandler. rewrite Hf. by rewrite consentProxyHandler_eq.
  - simpl. by rewrite lookup_insert_eq.
  - simpl. rewrite lookup_insert_eq. simpl. by rewrite lookup_insert_eq.
Qed.

Lemma evalConstraint_empty_witness :
  Scenario.constraints0 !! "list_tasks" = None
  ∧ toolHandler Scenario.cel_demo Scenario.constraints0 "list_tasks"
      Scenario.req_list init
    = (started "1", accepted Scenario.req_list init)
  ∧ callQueue (step Scenario.cel_demo Scenario.constraints0
                 (EvRegister 0%nat) (accepted Scenario.req_list init)).2
      !! 1%Z
    = Some {| pcID := 1; Request := Scenario.req_list; ResponseC := 0%nat |}.
Proof.
  assert (Hc : Scenario.constraints0 !! "list_tasks" = None)
    by (vm_compute; reflexivity).
  split; [exact Hc|].
  destruct (evalConstraint_empty Scenario.cel_demo Scenario.cel_demo
              Scenario.constraints0 "list_tasks" Scenario.req_list ∅ ∅ init Hc)
    as (_ & _ & _ & H1 & _ & H2).
  split; [exact H1 | exact H2].
Defined.

End HITLProofs.

(** ** Status checks and the task invariant, in both proxies *)

Module TaskInvariantProofs.
Import Spec TaskEngineProofs.

(** C3: a status check whose [id] names no task answers the error result
    "unknown task ID" at once; for a task that is [Pending] it sleeps three
    seconds and then answers "Task <id> is pending"; for a task that is
    [Done] it answers the stored result at once.  The check changes nothing:
    any number of checks in a row give the same answer and leave the state
    of either proxy as it was.  In the states the proxies can reach these
    are the only cases: the handler never panics. *)
Theorem checkLongRunningTask_cases (r : CallToolRequest) (reg : registry)
    (id : string) :
  Arguments r !! "id" = Some (VString id) →
  match longRunningTasks reg !! id with
  | None =>
      checkLongRunningTaskHandler r reg
      = Returned 0 (Some (NewToolResultError ("unknown task ID " ++ id)))
  | Some p =>
      ∀ t, heap reg !! p = Some t →
        (status t = Pending →
           checkLongRunningTaskHandler r reg
           = Returned (3 * Second)
               (Some (NewToolResultText ("Task " ++ id ++ " is pending"))))
        ∧ (status t = Done →
             checkLongRunningTaskHandler r reg = Returned 0 (result t))
  end
  ∧ (∀ cel constraints s n,
       HITL.run cel constraints (replicate n (HITL.EvCheck r)) s
       = (replicate n
            (HITL.EvCheck r,
             HITL.OutCheck (checkLongRunningTaskHandler r (HITL.tasks s))),
          s))
  ∧ (∀ lro s n, LRO.run lro (replicate n (LRO.EvCheck r)) s = s)
  ∧ (∀ cel constraints evs,
       checkLongRunningTaskHandler r
         (HITL.tasks (HITL.run cel constraints evs HITL.init).2) ≠ Panicked)
  ∧ (∀ lro evs,
       checkLongRunningTaskHandler r (LRO.tasks (LRO.run lro evs LRO.init))
       ≠ Panicked).
Proof.
  intros Hid. split; [|split; [|split; [|split]]].
  - unfold checkLongRunningTaskHandler, RequireString, GetArguments.
    rewrite Hid. destruct (longRunningTasks reg !! id) as [p|]; [|done].
    intros t Ht. rewrite Ht. unfold Status, Result. split; intros Hs.
    + by rewrite decide_True.
    + rewrite decide_False by (rewrite Hs; done). by rewrite decide_True.
  - intros. apply check_unchanged_hitl.
  - intros. apply check_unchanged_lro.
  - intros cel constraints evs.
    destruct (HITLProofs.hitl_run_inv cel constraints evs HITL.init
                (HITLProofs.hitl_inv_init)) as [Hr _].
    by apply (check_returns _ _ r Hr).
  - intros lro evs.
    destruct (LROProofs.lro_run_inv lro evs LRO.init LROProofs.lro_inv_init)
      as [Hr _].
    by apply (check_returns _ _ r Hr).
Qed.

Lemma checkLongRunningTask_cases_witness :
  Arguments Scenario.check1 !! "id" = Some (VString "1")
  ∧ checkLongRunningTaskHandler Scenario.check1
      (HITL.tasks Scenario.hitl_waiting)
    = Returned 3000000000 (Some (NewToolResultText "Task 1 is pending"))
  ∧ checkLongRunningTaskHandler Scenario.check1
      (HITL.tasks Scenario.hitl_rejected)
    = Returned 0 (Some (NewToolResultError "User rejected the request")).
Proof.
  assert (Hid : Arguments Scenario.check1 !! "id" = Some (VString "1"))
    by (vm_compute; reflexivity).
  split; [exact Hid|]. split.
  - pose proof (checkLongRunningTask_cases Scenario.check1
                  (HITL.tasks Scenario.hitl_waiting) "1" Hid) as [H _].
    assert (E : longRunningTasks (HITL.tasks Scenario.hitl_waiting) !! "1"
                = Some 0%nat) by (vm_compute; reflexivity).
    rewrite E in H.
    apply (H {| ID := "1"; status := Pending; result := None |});
      vm_compute; reflexivity.
  - pose proof (checkLongRunningTask_cases Scenario.check1
                  (HITL.tasks Scenario.hitl_rejected) "1" Hid) as [H _].
    assert (E : longRunningTasks (HITL.tasks Scenario.hitl_rejected) !! "1"
                = Some 0%nat) by (vm_compute; reflexivity).
    rewrite E in H.
    apply (H {| ID := "1"; status := Done;
                result := Some (NewToolResultError "User rejected the request") |});
      vm_compute; reflexivity.
Defined.

(** C8: in every state either proxy can reach, every task has a non-nil
    result exactly when its status is [Done], and its status is [Pending] or
    [Done].  A task is created [Pending] with a nil result, it is [Pending]
    exactly as long as the goroutine [Run] started for it has not finished,
    that goroutine is the only writer and writes once: a [Pending] task can
    still become [Done], and a task that is [Done] stays the same task,
    status and result, in every continuation. *)
Theorem task_result_iff_done :
  (∀ reg, heap (startLongRunningTask reg).2 !! length (heap reg)
          = Some {| ID := ID (fresh_task reg); status := Pending;
                    result := None |})
  ∧ (∀ lroMethods evs p t,
       let s := LRO.run lroMethods evs LRO.init in
       heap (LRO.tasks s) !! p = Some t →
       (result t ≠ None ↔ status t = Done)
       ∧ (status t = Pending ∨ status t = Done)
       ∧ (status t = Pending ↔ is_Some (LRO.goroutines s !! p))
       ∧ (status t = Done →
            ∀ evs', heap (LRO.tasks (LRO.run lroMethods evs' s)) !! p = Some t)
       ∧ (status t = Pending →
            ∃ evs' t', heap (LRO.tasks (LRO.run lroMethods evs' s)) !! p
                       = Some t'
                       ∧ status t' = Done ∧ ID t' = ID t))
  ∧ (∀ cel constraints evs p t,
       let s := (HITL.run cel constraints evs HITL.init).2 in
       heap (HITL.tasks s) !! p = Some t →
       (result t ≠ None ↔ status t = Done)
       ∧ (status t = Pending ∨ status t = Done)
       ∧ (status t = Pending ↔ is_Some (HITL.goroutines s !! p))
       ∧ (status t = Done →
            ∀ evs', heap (HITL.tasks (HITL.run cel constraints evs' s).2) !! p
                    = Some t)
       ∧ (status t = Pending →
            ∃ evs' t',
              heap (HITL.tasks (HITL.run cel constraints evs' s).2) !! p
              = Some t'
              ∧ status t' = Done ∧ ID t' = ID t)).
Proof.
  split; [|split].
  - intros reg. rewrite startLongRunningTask_eq. simpl.
    by rewrite list_lookup_middle.
  - intros lroMethods evs p t s Hp.
    assert (Hi : lro_inv s) by apply LROProofs.lro_run_inv, LROProofs.lro_inv_init.
    pose proof Hi as [(Ht & Hl & Hm) Hn]. destruct (Ht p t Hp) as [[Hiff Hst] Hlive].
    split; [done|]. split; [done|]. split; [|split].
    + by rewrite Hlive, elem_of_dom.
    + intros Hd evs'. by apply LROProofs.lro_run_keeps_done.
    + intros Hs. by apply LROProofs.lro_can_finish.
  - intros cel constraints evs p t s Hp.
    assert (Hi : hitl_inv s) by apply HITLProofs.hitl_run_inv, HITLProofs.hitl_inv_init.
    pose proof Hi as [(Ht & Hl & Hm) Hn]. destruct (Ht p t Hp) as [[Hiff Hst] Hlive].
    split; [done|]. split; [done|]. split; [|split].
    + by rewrite Hlive, elem_of_dom.
    + intros Hd evs'. by apply HITLProofs.hitl_run_keeps_done.
    + intros Hs. by apply HITLProofs.hitl_can_finish.
Qed.

End TaskInvariantProofs.

(** * Properties of the rest of the code *)

(** ** Session manager: allocation, sweep, isolation *)

Module SessionManagerMore.
Import SessionManager SessionManagerProofs.

Section Lemmas.
Context {DB : Type} (sql_Open : string → DB + error).

Lemma cleanup_lookup now m sid :
  sessions (cleanupExpired now m).2 !! sid
  = match sessions m !! sid with
    | Some info => if After now (ExpiresAt info) then None else Some info
    | None => None
    end.
Proof.
  unfold cleanupExpired. simpl.
  destruct (sessions m !! sid) as [info|] eqn:E.
  - destruct (After now (ExpiresAt info)) eqn:EA.
    + apply map_lookup_filter_None. right. intros i Hi. simpl.
      rewrite E in Hi. injection Hi as <-. by rewrite EA.
    + apply map_lookup_filter_Some. by split.
  - apply map_lookup_filter_None. by left.
Qed.

Lemma GetDB_absent now m sid :
  sessions m !! sid = None →
  GetDB sql_Open now m sid = (inr errInvalidSession, m).
Proof. intros H. unfold GetDB. by rewrite H. Qed.

Lemma step_keeps_absent now e m sid :
  sessions m !! sid = None →
  match e with EvCreate sid' _ => sid' ≠ sid | _ => True end →
  sessions (step sql_Open now e m).2 !! sid = None
  ∧ (e = EvGetDB sid →
       (step sql_Open now e m).1 = OutGetDB (inr errInvalidSession)).
Proof.
  intros H Hne. destruct e as [sid' exec|sid'|]; simpl.
  - split; [|done]. unfold CreateDatabase.
    destruct (sql_Open _); [destruct exec|]; simpl; try done.
    by rewrite lookup_insert_ne.
  - destruct (decide (sid' = sid)) as [->|Hd].
    + rewrite GetDB_absent by done. by split.
    + split; [|congruence]. unfold GetDB.
      destruct (sessions m !! sid') as [i|]; simpl; [|done].
      destruct (After now (ExpiresAt i)); simpl.
      * by rewrite lookup_delete_ne.
      * destruct (sql_Open (Path i)); simpl; by rewrite lookup_insert_ne.
  - split; [|done]. apply map_lookup_filter_None. by left.
Qed.



End Lemmas.




(** X1: the sweep keeps exactly the sessions that are not past their
    deadline, each as it was; the paths it hands to [os.Remove] are exactly
    the paths of the sessions that are past it, one per session; nothing
    else of the manager changes. *)
Theorem cleanupExpired_exact (now : Z) (m : SessionManager) :
  (∀ sid, sessions (cleanupExpired now m).2 !! sid
          = match sessions m !! sid with
            | Some info =>
                if decide (ExpiresAt info < now)%Z then None else Some info
            | None => None
            end)
  ∧ (∀ path, path ∈ (cleanupExpired now m).1 ↔
       ∃ sid info, sessions m !! sid = Some info
                   ∧ (ExpiresAt info < now)%Z ∧ Path info = path)
  ∧ (length (cleanupExpired now m).1 + size (sessions (cleanupExpired now m).2)
     = size (sessions m))%nat
  ∧ rootDir (cleanupExpired now m).2 = rootDir m
  ∧ expiration (cleanupExpired now m).2 = expiration m.
Proof.
  split; [|split; [|split; [|done]]].
  - intros sid. rewrite cleanup_lookup.
    destruct (sessions m !! sid) as [info|]; [|done].
    unfold After. destruct (decide (ExpiresAt info < now)%Z).
    + by rewrite bool_decide_eq_true_2.
    + by rewrite bool_decide_eq_false_2.
  - intros path. unfold cleanupExpired. simpl.
    rewrite <- list_fmap_compose. rewrite list_elem_of_fmap. split.
    + intros [[sid info] [-> Hin]]. apply elem_of_map_to_list in Hin.
      apply map_lookup_filter_Some in Hin as [Hl He]. simpl in *.
      apply After_true in He. eauto.
    + intros (sid & info & Hl & He & <-). exists (sid, info). split; [done|].
      apply elem_of_map_to_list, map_lookup_filter_Some. split; [done|].
      simpl. by apply After_true.
  - unfold cleanupExpired. simpl. rewrite !length_fmap, length_map_to_list.
    rewrite <- map_size_disj_union.
    + f_equal. apply map_eq. intros sid.
      destruct (sessions m !! sid) as [info|] eqn:E.
      * destruct (After now (ExpiresAt info)) eqn:EA.
        -- apply lookup_union_Some_l, map_lookup_filter_Some. by split.
        -- apply lookup_union_Some_raw. right. split.
           ++ apply map_lookup_filter_None. right. intros i Hi. simpl.
              rewrite E in Hi. injection Hi as <-. by rewrite EA.
           ++ apply map_lookup_filter_Some. by split.
      * apply lookup_union_None. split;
          apply map_lookup_filter_None; by left.
    + apply map_disjoint_spec. intros sid i1 i2 H1 H2.
      apply map_lookup_filter_Some in H1 as [H1 E1].
      apply map_lookup_filter_Some in H2 as [H2 E2]. simpl in *.
      rewrite H1 in H2. injection H2 as <-. congruence.
Qed.



(** X3: "session expired" is answered once.  After the access that evicted
    the session, or after a sweep that removed it, every later access to the
    same key, at whatever time, answers "invalid session" and changes
    nothing. *)
Theorem evicted_session_is_invalid {DB : Type}
    (sql_Open : string → DB + error) (now now' : Z) (m : SessionManager)
    (sid : string) (info : SessionInfo) :
  sessions m !! sid = Some info →
  (ExpiresAt info < now)%Z →
  (GetDB sql_Open now m sid).1 = inr errSessionExpired
  ∧ GetDB sql_Open now' (GetDB sql_Open now m sid).2 sid
    = (inr errInvalidSession, (GetDB sql_Open now m sid).2)
  ∧ GetDB sql_Open now' (cleanupExpired now m).2 sid
    = (inr errInvalidSession, (cleanupExpired now m).2).
Proof.
  intros H Hlt. rewrite (GetDB_late sql_Open now m sid info H Hlt).
  split; [done|]. split.
  - apply GetDB_absent. simpl. apply lookup_delete_eq.
  - apply GetDB_absent. rewrite cleanup_lookup, H.
    apply After_true in Hlt. by rewrite Hlt.
Qed.

Lemma evicted_session_is_invalid_witness :
  sessions Scenario.mgr0 !! "s" = Some Scenario.info0
  ∧ (GetDB Scenario.open_ok 90
       (GetDB Scenario.open_ok 101 Scenario.mgr0 "s").2 "s").1
    = inr errInvalidSession
  ∧ (GetDB Scenario.open_ok 90 (cleanupExpired 101 Scenario.mgr0).2 "s").1
    = inr errInvalidSession.
Proof.
  assert (H : sessions Scenario.mgr0 !! "s" = Some Scenario.info0)
    by apply lookup_insert_eq.
  split; [exact H|].
  destruct (evicted_session_is_invalid Scenario.open_ok 101 90
              Scenario.mgr0 "s" Scenario.info0 H) as (_ & H1 & H2).
  - simpl. lia.
  - rewrite H1, H2. split; reflexivity.
Defined.


(** X5: a key that is not in the session map stays unknown as long as no
    allocation draws it: through any schedule of accesses (to any key),
    sweeps and allocations of other keys, every access to it answers
    "invalid session". *)
Theorem unknown_session_stays_invalid {DB : Type}
    (sql_Open : string → DB + error) (evs : list (Z * event))
    (m : SessionManager) (sid : string) :
  sessions m !! sid = None →
  Forall (λ te, ∀ exec, te.2 ≠ EvCreate sid exec) evs →
  Forall (λ teo, teo.1.2 = EvGetDB sid →
                 teo.2 = OutGetDB (inr errInvalidSession))
    (run sql_Open evs m).1
  ∧ sessions (run sql_Open evs m).2 !! sid = None.
Proof.
  revert m. induction evs as [|[t e] evs IH]; intros m H Hev.
  - simpl. by split.
  - apply Forall_cons in Hev as [He Hev]. simpl in He.
    destruct (step_keeps_absent sql_Open t e m sid H) as [Hs Ho].
    { destruct e; try done. intros ->. by apply (He exec). }
    specialize (IH _ Hs Hev).
    change (run sql_Open ((t, e) :: evs) m)
      with (let '(o, m1) := step sql_Open t e m in
            let '(tr, m2) := run sql_Open evs m1 in ((t, e, o) :: tr, m2)).
    destruct (step sql_Open t e m) as [o m1]. cbn [fst snd] in *.
    destruct (run sql_Open evs m1) as [tr m2]. cbn [fst snd] in *.
    destruct IH as [IH1 IH2]. split; [|done].
    apply Forall_cons. split; [exact Ho|exact IH1].
Qed.

Lemma unknown_session_stays_invalid_witness :
  let evs := [(10, EvGetDB "not-a-real-session"); (20, EvCleanup);
              (30, EvCreate "t" None); (40, EvGetDB "not-a-real-session")] in
  sessions Scenario.mgr0 !! "not-a-real-session" = None
  ∧ Forall (λ teo, teo.1.2 = EvGetDB "not-a-real-session" →
                   teo.2 = OutGetDB (inr errInvalidSession))
      (run Scenario.open_ok evs Scenario.mgr0).1.
Proof.
  intros evs.
  assert (H : sessions Scenario.mgr0 !! "not-a-real-session" = None)
    by (vm_compute; reflexivity).
  split; [exact H|].
  destruct (unknown_session_stays_invalid Scenario.open_ok evs
              Scenario.mgr0 "not-a-real-session" H) as [H1 _].
  - repeat constructor; intros exec; discriminate.
  - exact H1.
Defined.


End SessionManagerMore.

(** ** The SQLite server's handlers *)

Module McpServerProofs.
Import SessionManager SessionManagerProofs McpServer.

Lemma scanAll_ok cols (raws : list (list SqlValue)) acc :
  scanAll cols (inl <$> raws) acc = inl (acc ++ (rowOf cols <$> raws))%list.
Proof.
  revert acc. induction raws as [|raw raws IH]; intros acc; simpl.
  - by rewrite app_nil_r.
  - rewrite IH. by rewrite <- app_assoc.
Qed.

Lemma scanAll_err cols (raws : list (list SqlValue)) err rest acc :
  scanAll cols ((inl <$> raws) ++ inr err :: rest)%list acc = inr err.
Proof.
  revert acc. induction raws as [|raw raws IH]; intros acc; simpl; [done|].
  apply IH.
Qed.

Lemma foldl_row_other (l : list (string * SqlValue))
    (acc : gmap string SqlValue) (c : string) :
  Forall (λ cv, cv.1 ≠ c) l →
  foldl (λ row cv, <[cv.1 := cell cv.2]> row) acc l !! c = acc !! c.
Proof.
  revert acc. induction l as [|[c' v] l IH]; intros acc Hl; simpl; [done|].
  apply Forall_cons in Hl as [Hc Hl]. simpl in Hc.
  rewrite IH by done. by rewrite lookup_insert_ne.
Qed.

(** The value a row holds for a column name is the converted value of the
    last column of that name. *)
Lemma rowOf_lookup cols raw i c v :
  cols !! i = Some c → raw !! i = Some v →
  (∀ j, (i < j)%nat → cols !! j ≠ Some c) →
  rowOf cols raw !! c = Some (cell v).
Proof.
  intros Hc Hv Hlast. unfold rowOf.
  assert (Hz : zip cols raw !! i = Some (c, v)).
  { rewrite lookup_zip_with. by rewrite Hc, Hv. }
  rewrite <- (take_drop_middle _ _ _ Hz). rewrite foldl_app. simpl.
  rewrite foldl_row_other; [by rewrite lookup_insert_eq|].
  apply Forall_forall. intros [c' v'] Hin Heq. simpl in Heq. subst c'.
  apply list_elem_of_lookup in Hin as [k Hk].
  rewrite lookup_drop in Hk. rewrite lookup_zip_with in Hk.
  destruct (cols !! (S i + k)%nat) as [c''|] eqn:E; [|done].
  destruct (raw !! (S i + k)%nat); [|done]. simpl in Hk. injection Hk as -> _.
  apply (Hlast (S i + k)%nat); [lia|done].
Qed.

Lemma rowOf_dom cols raw :
  length raw = length cols → dom (rowOf cols raw) = list_to_set cols.
Proof.
  unfold rowOf. intros Hlen.
  assert (H : ∀ (l : list (string * SqlValue)) (acc : gmap string SqlValue),
            dom (foldl (λ row cv, <[cv.1 := cell cv.2]> row) acc l)
            = dom acc ∪ list_to_set l.*1).
  { induction l as [|[c v] l IH]; intros acc; simpl.
    - by rewrite union_empty_r_L.
    - rewrite IH, dom_insert_L.
      by rewrite (union_comm_L {[c]} (dom acc)), <- union_assoc_L. }
  rewrite H, dom_empty_L, union_empty_l_L. by rewrite fst_zip by lia.
Qed.

(** X7: [run_sql] does no database work for a session it does not accept.
    With a key that is not in the map it returns the error "invalid
    session: invalid session" and changes nothing; with a key past its
    deadline it returns "invalid session: session expired" and evicts the
    entry; neither outcome depends on the statement or on the database. *)
Theorem runSQLHandler_session_gate {DB : Type}
    (sql_Open : string → DB + error) (Query : DB → string → Rows + error)
    (Exec : DB → string → option error) (Marshal : response → string + error)
    (now : Z) (req : CallToolRequest) (m : SessionManager)
    (session sqlStmt : string) :
  Arguments req !! "session" = Some (VString session) →
  Arguments req !! "sql" = Some (VString sqlStmt) →
  session ≠ EmptyString → sqlStmt ≠ EmptyString →
  match sessions m !! session with
  | None =>
      runSQLHandler sql_Open Query Exec Marshal now req m
      = (Return (inr "invalid session: invalid session"), m)
  | Some info =>
      (ExpiresAt info < now)%Z →
      runSQLHandler sql_Open Query Exec Marshal now req m
      = (Return (inr "invalid session: session expired"),
         with_sessions m (delete session))
  end.
Proof.
  intros Hs Hq Hne1 Hne2. unfold runSQLHandler. rewrite Hs, Hq. simpl.
  rewrite decide_False by (intros [?|?]; done).
  destruct (sessions m !! session) as [info|] eqn:E.
  - intros Hlt. by rewrite (GetDB_late sql_Open now m session info E Hlt).
  - by rewrite (GetDB_unknown sql_Open now m session E).
Qed.

Lemma runSQLHandler_session_gate_witness :
  Arguments (Scenario2.req_sql "s" "SELECT 1;") !! "session"
  = Some (VString "s")
  ∧ runSQLHandler Scenario.open_ok Scenario2.query_demo Scenario2.exec_demo
      Scenario2.marshal_demo 101 (Scenario2.req_sql "s" "SELECT 1;")
      Scenario.mgr0
    = (Return (inr "invalid session: session expired"),
       with_sessions Scenario.mgr0 (delete "s")).
Proof.
  assert (Hs : Arguments (Scenario2.req_sql "s" "SELECT 1;") !! "session"
               = Some (VString "s")) by (vm_compute; reflexivity).
  assert (Hq : Arguments (Scenario2.req_sql "s" "SELECT 1;") !! "sql"
               = Some (VString "SELECT 1;")) by (vm_compute; reflexivity).
  split; [exact Hs|].
  pose proof (runSQLHandler_session_gate Scenario.open_ok
                Scenario2.query_demo Scenario2.exec_demo
                Scenario2.marshal_demo 101 _ Scenario.mgr0 "s" "SELECT 1;"
                Hs Hq) as H.
  assert (E : sessions Scenario.mgr0 !! "s" = Some Scenario.info0)
    by apply lookup_insert_eq.
  rewrite E in H. apply H; [discriminate|discriminate|simpl; lia].
Defined.

(** X8: a [run_sql] call on a session that is not past its deadline renews
    it, whatever becomes of the statement: the deadline moves to
    [now + TTL] even when the statement fails, and even when the database
    file does not open, which the handler reports as "invalid session:
    failed to open sqlite db: ...".  Otherwise the answer is that of the
    statement run on the session's own file. *)
Theorem runSQLHandler_renews {DB : Type}
    (sql_Open : string → DB + error) (Query : DB → string → Rows + error)
    (Exec : DB → string → option error) (Marshal : response → string + error)
    (now : Z) (req : CallToolRequest) (m : SessionManager)
    (session sqlStmt : string) (info : SessionInfo) :
  Arguments req !! "session" = Some (VString session) →
  Arguments req !! "sql" = Some (VString sqlStmt) →
  session ≠ EmptyString → sqlStmt ≠ EmptyString →
  sessions m !! session = Some info →
  (now ≤ ExpiresAt info)%Z →
  sessions (runSQLHandler sql_Open Query Exec Marshal now req m).2
  = <[session := {| Path := Path info; ExpiresAt := now + expiration m;
                    LastAccess := now |}]> (sessions m)
  ∧ (runSQLHandler sql_Open Query Exec Marshal now req m).1
    = Return
        match sql_Open (Path info) with
        | inl db => execSQL Query Exec Marshal db sqlStmt
        | inr err => inr ("invalid session: failed to open sqlite db: " ++ err)
        end.
Proof.
  intros Hs Hq Hne1 Hne2 Hl Hle. unfold runSQLHandler. rewrite Hs, Hq. simpl.
  rewrite decide_False by (intros [?|?]; done).
  rewrite (GetDB_live sql_Open now m session info Hl Hle).
  unfold opened. by destruct (sql_Open (Path info)).
Qed.

Lemma runSQLHandler_renews_witness :
  sessions Scenario.mgr0 !! "s" = Some Scenario.info0
  ∧ sessions (runSQLHandler Scenario.open_ok Scenario2.query_demo
                Scenario2.exec_demo Scenario2.marshal_demo 60
                (Scenario2.req_sql "s" "DROP TABLE nothing;")
                Scenario.mgr0).2 !! "s"
    = Some {| Path := "/tmp/sqlite_mcp/s.db"; ExpiresAt := 110;
              LastAccess := 60 |}
  ∧ (runSQLHandler Scenario.open_ok Scenario2.query_demo
       Scenario2.exec_demo Scenario2.marshal_demo 60
       (Scenario2.req_sql "s" "DROP TABLE nothing;") Scenario.mgr0).1
    = Return (inr "sql error: syntax error").
Proof.
  assert (E : sessions Scenario.mgr0 !! "s" = Some Scenario.info0)
    by apply lookup_insert_eq.
  split; [exact E|].
  assert (Hs : Arguments (Scenario2.req_sql "s" "DROP TABLE nothing;")
                 !! "session" = Some (VString "s"))
    by (vm_compute; reflexivity).
  assert (Hq : Arguments (Scenario2.req_sql "s" "DROP TABLE nothing;")
                 !! "sql" = Some (VString "DROP TABLE nothing;"))
    by (vm_compute; reflexivity).
  assert (Hle : (60 ≤ ExpiresAt Scenario.info0)%Z) by (simpl; lia).
  assert (Hn1 : "s" ≠ EmptyString) by discriminate.
  assert (Hn2 : "DROP TABLE nothing;" ≠ EmptyString) by discriminate.
  destruct (runSQLHandler_renews Scenario.open_ok Scenario2.query_demo
              Scenario2.exec_demo Scenario2.marshal_demo 60
              (Scenario2.req_sql "s" "DROP TABLE nothing;") Scenario.mgr0
              "s" "DROP TABLE nothing;" Scenario.info0 Hs Hq Hn1 Hn2 E Hle)
    as [H1 H2].
  rewrite H1, H2. split; [by rewrite lookup_insert_eq|reflexivity].
Defined.

(** X9: [run_sql] panics exactly when its ["session"] or ["sql"] argument
    is missing or is not a string, and then the manager is untouched; when
    both are strings and one of them is empty it returns the error "missing
    required parameters 'session' or 'sql'" without looking the session up,
    so nothing is renewed or evicted. *)
Theorem runSQLHandler_bad_arguments {DB : Type}
    (sql_Open : string → DB + error) (Query : DB → string → Rows + error)
    (Exec : DB → string → option error) (Marshal : response → string + error)
    (now : Z) (req : CallToolRequest) (m : SessionManager) :
  ((runSQLHandler sql_Open Query Exec Marshal now req m).1 = Panic ↔
     (∀ s, Arguments req !! "session" ≠ Some (VString s))
     ∨ (∀ s, Arguments req !! "sql" ≠ Some (VString s)))
  ∧ ((runSQLHandler sql_Open Query Exec Marshal now req m).1 = Panic →
       (runSQLHandler sql_Open Query Exec Marshal now req m).2 = m)
  ∧ (∀ session sqlStmt,
       Arguments req !! "session" = Some (VString session) →
       Arguments req !! "sql" = Some (VString sqlStmt) →
       session = EmptyString ∨ sqlStmt = EmptyString →
       runSQLHandler sql_Open Query Exec Marshal now req m
       = (Return (inr "missing required parameters 'session' or 'sql'"), m)).
Proof.
  assert (Hnp : ∀ session sqlStmt,
            Arguments req !! "session" = Some (VString session) →
            Arguments req !! "sql" = Some (VString sqlStmt) →
            (runSQLHandler sql_Open Query Exec Marshal now req m).1 ≠ Panic).
  { intros session sqlStmt Hs Hq. unfold runSQLHandler. rewrite Hs, Hq. simpl.
    destruct (decide _); [done|].
    by destruct (GetDB sql_Open now m session) as [[db|err] m']. }
  assert (Has : ∀ v, assertString v = None ↔ ∀ s, v ≠ Some (VString s)).
  { intros [[]|]; simpl; split; try done; intros H; try congruence.
    by destruct (H s). }
  split; [|split].
  - split.
    + intros Hp.
      destruct (assertString (Arguments req !! "session")) as [session|] eqn:E1;
        [|left; by apply Has].
      destruct (assertString (Arguments req !! "sql")) as [sqlStmt|] eqn:E2;
        [|right; by apply Has].
      exfalso. apply (Hnp session sqlStmt); [| |done].
      * destruct (Arguments req !! "session") as [[]|]; simpl in E1; congruence.
      * destruct (Arguments req !! "sql") as [[]|]; simpl in E2; congruence.
    + unfold runSQLHandler. intros [H|H]; apply Has in H; rewrite H; [done|].
      by destruct (assertString (Arguments req !! "session")).
  - unfold runSQLHandler.
    destruct (assertString (Arguments req !! "session")) as [session|];
      [|done].
    destruct (assertString (Arguments req !! "sql")) as [sqlStmt|]; [|done].
    destruct (decide _); [done|].
    by destruct (GetDB sql_Open now m session) as [[db|err] m'].
  - intros session sqlStmt Hs Hq He. unfold runSQLHandler.
    rewrite Hs, Hq. simpl. by rewrite decide_True.
Qed.

(** X10: what [run_sql] makes of a statement.  When [db.Query] fails the
    statement is run with [db.Exec] and only that outcome is reported.  When
    it succeeds, the result holds one row per scanned row, in order; a row
    maps every column name to the value of the last column of that name,
    with NULL kept and byte strings turned into strings; and the first
    [Scan] that fails makes the handler return that error and nothing of
    the rows read before it. *)
Theorem execSQL_rows {DB : Type} (Query : DB → string → Rows + error)
    (Exec : DB → string → option error) (Marshal : response → string + error)
    (db : DB) (sqlStmt : string) :
  (∀ qerr, Query db sqlStmt = inr qerr →
     execSQL Query Exec Marshal db sqlStmt
     = match Exec db sqlStmt with
       | Some execErr => inr ("sql error: " ++ execErr)
       | None => inl (NewToolResultText (marshalled Marshal RespOk))
       end)
  ∧ (∀ rows cols raws,
       Query db sqlStmt = inl rows → Columns rows = inl cols →
       scans rows = inl <$> raws →
       execSQL Query Exec Marshal db sqlStmt
       = inl (NewToolResultText
                (marshalled Marshal (RespResults (rowOf cols <$> raws)))))
  ∧ (∀ rows cols raws err rest,
       Query db sqlStmt = inl rows → Columns rows = inl cols →
       scans rows = ((inl <$> raws) ++ inr err :: rest)%list →
       execSQL Query Exec Marshal db sqlStmt = inr err)
  ∧ (∀ cols raw i c v,
       cols !! i = Some c → raw !! i = Some v →
       (∀ j, (i < j)%nat → cols !! j ≠ Some c) →
       rowOf cols raw !! c
       = Some match v with
              | SqlNil => SqlNil
              | SqlBytes b => SqlString b
              | v => v
              end)
  ∧ (∀ cols raw, length raw = length cols →
       dom (rowOf cols raw) = list_to_set cols).
Proof.
  split; [|split; [|split; [|split]]].
  - intros qerr Hq. unfold execSQL. by rewrite Hq.
  - intros rows cols raws Hq Hc Hs. unfold execSQL.
    rewrite Hq, Hc, Hs, scanAll_ok. done.
  - intros rows cols raws err rest Hq Hc Hs. unfold execSQL.
    by rewrite Hq, Hc, Hs, scanAll_err.
  - intros cols raw i c v Hc Hv Hl. by apply (rowOf_lookup cols raw i).
  - apply rowOf_dom.
Qed.

(** X11: the session [create_db] hands out is the one [run_sql] accepts.
    After a successful [create_db] at time [t0], a [run_sql] call with the
    returned key at any time up to [t0 + TTL] runs its statement on the
    file that was created for the key, and moves the deadline. *)
Theorem create_db_then_run_sql {DB : Type}
    (sql_Open : string → DB + error) (Query : DB → string → Rows + error)
    (Exec : DB → string → option error) (Marshal : response → string + error)
    (sid : string) (t0 t : Z) (m : SessionManager) (db : DB)
    (req : CallToolRequest) (sqlStmt text : string) :
  sql_Open (dbPath m sid) = inl db →
  Marshal (RespSession sid) = inl text →
  Arguments req !! "session" = Some (VString sid) →
  Arguments req !! "sql" = Some (VString sqlStmt) →
  sid ≠ EmptyString → sqlStmt ≠ EmptyString →
  (t ≤ t0 + expiration m)%Z →
  (createDBHandler sql_Open Marshal sid None t0 m).1
  = Return (inl (NewToolResultText text))
  ∧ (runSQLHandler sql_Open Query Exec Marshal t req
       (createDBHandler sql_Open Marshal sid None t0 m).2).1
    = Return (execSQL Query Exec Marshal db sqlStmt)
  ∧ sessions (runSQLHandler sql_Open Query Exec Marshal t req
                (createDBHandler sql_Open Marshal sid None t0 m).2).2 !! sid
    = Some {| Path := dbPath m sid; ExpiresAt := t + expiration m;
              LastAccess := t |}.
Proof.
  intros Ho Hm Hs Hq Hn1 Hn2 Ht.
  unfold createDBHandler, CreateDatabase. rewrite Ho, Hm. simpl.
  split; [done|].
  set (m1 := with_sessions m _).
  assert (H1 : sessions m1 !! sid
               = Some {| Path := dbPath m sid; ExpiresAt := t0 + expiration m;
                         LastAccess := t0 |})
    by (subst m1; simpl; by rewrite lookup_insert_eq).
  unfold runSQLHandler. rewrite Hs, Hq. simpl.
  rewrite decide_False by (intros [?|?]; done).
  rewrite (GetDB_live sql_Open t m1 sid _ H1) by done.
  unfold opened. simpl. rewrite Ho. simpl. split; [done|].
  by rewrite lookup_insert_eq.
Qed.

Lemma create_db_then_run_sql_witness :
  let m := New "/tmp/sqlite_mcp" in
  let q := "SELECT id, name FROM users ORDER BY id;" in
  Scenario.open_ok (dbPath m "17") = inl "/tmp/sqlite_mcp/17.db"
  ∧ (createDBHandler Scenario.open_ok Scenario2.marshal_demo "17" None 0 m).1
    = Return (inl (NewToolResultText "session 17"))
  ∧ (runSQLHandler Scenario.open_ok Scenario2.query_demo Scenario2.exec_demo
       Scenario2.marshal_demo sessionTTL (Scenario2.req_sql "17" q)
       (createDBHandler Scenario.open_ok Scenario2.marshal_demo "17" None 0
          m).2).1
    = Return (inl (NewToolResultText "results 2")).
Proof.
  intros m q.
  assert (Ho : Scenario.open_ok (dbPath m "17") = inl "/tmp/sqlite_mcp/17.db")
    by reflexivity.
  assert (Hm : Scenario2.marshal_demo (RespSession "17") = inl "session 17")
    by reflexivity.
  assert (Hs : Arguments (Scenario2.req_sql "17" q) !! "session"
               = Some (VString "17")) by (vm_compute; reflexivity).
  assert (Hq : Arguments (Scenario2.req_sql "17" q) !! "sql"
               = Some (VString q)) by (vm_compute; reflexivity).
  assert (Hn1 : "17" ≠ EmptyString) by discriminate.
  assert (Hn2 : q ≠ EmptyString) by discriminate.
  assert (Ht : (sessionTTL ≤ 0 + expiration m)%Z) by (simpl; lia).
  split; [exact Ho|].
  destruct (create_db_then_run_sql Scenario.open_ok Scenario2.query_demo
              Scenario2.exec_demo Scenario2.marshal_demo "17" 0 sessionTTL m
              "/tmp/sqlite_mcp/17.db" (Scenario2.req_sql "17" q) q
              "session 17" Ho Hm Hs Hq Hn1 Hn2 Ht) as (H1 & H2 & _).
  split; [exact H1|]. rewrite H2. vm_compute. reflexivity.
Defined.

End McpServerProofs.

(** ** Task ids, and starting and polling a task *)

Module TaskEngineMore.
Import Spec MoreSpec TaskEngineProofs.

Lemma AddUint64_small (n : nat) :
  (Z.of_nat n + 1 < 2 ^ 64)%Z → AddUint64 (Z.of_nat n) 1 = (Z.of_nat n + 1)%Z.
Proof. intros H. unfold AddUint64. apply Z.mod_small. lia. Qed.

Lemma pretty_index_inj (p q : nat) :
  pretty (Z.to_N (Z.of_nat p + 1)) = pretty (Z.to_N (Z.of_nat q + 1)) → p = q.
Proof. intros H. apply (inj pretty) in H. lia. Qed.

Lemma ids_inv_empty : ids_inv empty_registry.
Proof.
  split; [done|]. split.
  - intros p t H. done.
  - intros id p H. simpl in H. by rewrite lookup_empty in H.
Qed.

(** Starting a task while the counter has room keeps the ids in step. *)
Lemma ids_inv_start reg :
  ids_inv reg → (Z.of_nat (length (heap reg)) + 1 < 2 ^ 64)%Z →
  ids_inv (startLongRunningTask reg).2.
Proof.
  intros (Hn & Hh & Hm) Hb. rewrite startLongRunningTask_eq.
  assert (Hid : ID (fresh_task reg)
                = pretty (Z.to_N (Z.of_nat (length (heap reg)) + 1))).
  { unfold fresh_task. simpl. rewrite Hn. by rewrite AddUint64_small. }
  split; [|split]; cbn [snd heap longRunningTasks nextID].
  - rewrite Hn, AddUint64_small by done. rewrite length_app. simpl. lia.
  - intros p t Hp. destruct (decide (p = length (heap reg))) as [->|Hne].
    + rewrite list_lookup_middle in Hp by done. injection Hp as <-.
      split; [done|]. by rewrite lookup_insert_eq.
    + assert (Hlt : (p < length (heap reg))%nat).
      { apply lookup_lt_Some in Hp. rewrite length_app in Hp. simpl in Hp. lia. }
      rewrite lookup_app_l in Hp by done.
      destruct (Hh p t Hp) as [Hi Hl]. split; [done|].
      rewrite lookup_insert_ne; [done|].
      rewrite Hid, Hi. intros Heq. apply pretty_index_inj in Heq. lia.
  - intros id p Hl.
    destruct (decide (ID (fresh_task reg) = id)) as [<-|Hne].
    + rewrite lookup_insert_eq in Hl. injection Hl as <-.
      exists (fresh_task reg). by rewrite list_lookup_middle.
    + rewrite lookup_insert_ne in Hl by done.
      destruct (Hm id p Hl) as (t & Ht & Hi). exists t.
      split; [by apply lookup_app_l_Some|done].
Qed.

Lemma ids_inv_complete reg p out : ids_inv reg → ids_inv (complete p out reg).
Proof.
  intros (Hn & Hh & Hm). split; [|split]; simpl.
  - by rewrite length_alter.
  - intros q t Hq. destruct (decide (p = q)) as [->|Hne].
    + rewrite list_lookup_alter_eq in Hq.
      destruct (heap reg !! q) as [t0|] eqn:E; [|done]. injection Hq as <-.
      simpl. by apply Hh.
    + rewrite list_lookup_alter_ne in Hq by done. by apply Hh.
  - intros id q Hl. destruct (Hm id q Hl) as (t & Ht & Hi).
    destruct (decide (p = q)) as [->|Hne].
    + exists (finish t out). rewrite list_lookup_alter_eq, Ht. by split.
    + exists t. by rewrite list_lookup_alter_ne.
Qed.

Lemma start_length reg :
  length (heap (startLongRunningTask reg).2) = S (length (heap reg)).
Proof. rewrite startLongRunningTask_eq. simpl. rewrite length_app. simpl. lia. Qed.

Lemma lro_step_ids lroMethods e s :
  ids_inv (LRO.tasks s) →
  (Z.of_nat (length (heap (LRO.tasks s))) + 1 < 2 ^ 64)%Z →
  ids_inv (LRO.tasks (LRO.step lroMethods e s))
  ∧ (length (heap (LRO.tasks (LRO.step lroMethods e s)))
     ≤ S (length (heap (LRO.tasks s))))%nat.
Proof.
  intros Hi Hb. destruct e as [name req CallTool|req|p CallTool|p]; simpl.
  - destruct (decide (name ∈ lroMethods)) as [Hin|Hin].
    + rewrite LROProofs.proxyHandler_lro by done. simpl.
      split; [by apply ids_inv_start|]. rewrite length_app. simpl. lia.
    + rewrite LROProofs.proxyHandler_direct by done. simpl. split; [done|lia].
  - split; [done|lia].
  - destruct (LRO.goroutines s !! p) as [[req|out]|]; simpl; split;
      (done || lia).
  - destruct (LRO.goroutines s !! p) as [[req|out]|]; simpl;
      try (split; [done|lia]).
    split; [by apply ids_inv_complete|]. rewrite length_alter. lia.
Qed.

Lemma lro_run_ids lroMethods evs s :
  ids_inv (LRO.tasks s) →
  (Z.of_nat (length (heap (LRO.tasks s)) + length evs) < 2 ^ 64)%Z →
  ids_inv (LRO.tasks (LRO.run lroMethods evs s)).
Proof.
  revert s. induction evs as [|e evs IH]; intros s Hi Hb; [done|].
  simpl in Hb. destruct (lro_step_ids lroMethods e s Hi) as [Hi' Hl]; [lia|].
  apply IH; [done|]. lia.
Qed.

Section Hitl.
Variable cel : string → gmap string Value → HITL.celRun.
Variable constraints : gmap string string.

Lemma hitl_step_ids e s :
  ids_inv (HITL.tasks s) →
  (Z.of_nat (length (heap (HITL.tasks s))) + 1 < 2 ^ 64)%Z →
  ids_inv (HITL.tasks (HITL.step cel constraints e s).2)
  ∧ (length (heap (HITL.tasks (HITL.step cel constraints e s).2))
     ≤ S (length (heap (HITL.tasks s))))%nat.
Proof.
  intros Hi Hb.
  destruct e as [name req|req|p|p|p|approve id CallTool]; simpl.
  - unfold HITL.toolHandler. rewrite HITLProofs.consentProxyHandler_eq.
    destruct (HITL.evalConstraint _ _ _) as [[|]|err]; simpl;
      try (split; [done|lia]).
    split; [by apply ids_inv_start|]. rewrite length_app. simpl. lia.
  - split; [done|lia].
  - destruct (HITL.goroutines s !! p) as [[req|pc|out]|]; simpl; split;
      (done || lia).
  - destruct (HITL.goroutines s !! p) as [[req|pc|out]|]; simpl; split;
      (done || lia).
  - destruct (HITL.goroutines s !! p) as [[req|pc|out]|]; simpl;
      try (split; [done|lia]).
    split; [by apply ids_inv_complete|]. rewrite length_alter. lia.
  - pose proof (HITLProofs.handleApproval_tasks approve id CallTool s) as Ht.
    destruct (HITL.handleApproval approve id CallTool s) as [r s'].
    simpl in *. rewrite Ht. split; [done|lia].
Qed.

Lemma hitl_run_ids evs s :
  ids_inv (HITL.tasks s) →
  (Z.of_nat (length (heap (HITL.tasks s)) + length evs) < 2 ^ 64)%Z →
  ids_inv (HITL.tasks (HITL.run cel constraints evs s).2).
Proof.
  revert s. induction evs as [|e evs IH]; intros s Hi Hb; [done|].
  rewrite HITLProofs.run_cons. cbn [fst snd]. simpl in Hb.
  destruct (hitl_step_ids e s Hi) as [Hi' Hl]; [lia|].
  apply IH; [done|]. lia.
Qed.

End Hitl.

(** X12: as long as fewer than 2^64 tasks have been started, every task of
    either proxy keeps the id it was started with, the id is the decimal of
    its rank among the started tasks, no two tasks share an id, and the
    [sync.Map] holds each task under its own id, so the task a caller was
    told about is the one its polls find. *)
Theorem task_ids_are_unique
    (cel : string → gmap string Value → HITL.celRun)
    (constraints : gmap string string) (lroMethods : gset string)
    (hevs : list HITL.event) (levs : list LRO.event) :
  (Z.of_nat (length hevs) < 2 ^ 64)%Z →
  (Z.of_nat (length levs) < 2 ^ 64)%Z →
  let hreg := HITL.tasks (HITL.run cel constraints hevs HITL.init).2 in
  let lreg := LRO.tasks (LRO.run lroMethods levs LRO.init) in
  ∀ reg, reg = hreg ∨ reg = lreg →
    (∀ p t, heap reg !! p = Some t →
       ID t = pretty (N.of_nat (S p))
       ∧ longRunningTasks reg !! ID t = Some p)
    ∧ (∀ p q t u, heap reg !! p = Some t → heap reg !! q = Some u →
         ID t = ID u → p = q)
    ∧ (∀ id p, longRunningTasks reg !! id = Some p →
         ∃ t, heap reg !! p = Some t ∧ ID t = id).
Proof.
  intros Hh Hl hreg lreg reg Hreg.
  assert (Hi : ids_inv reg).
  { destruct Hreg as [->| ->].
    - apply hitl_run_ids; [apply ids_inv_empty|]. simpl. lia.
    - apply lro_run_ids; [apply ids_inv_empty|]. simpl. lia. }
  destruct Hi as (Hn & Hp & Hm). split; [|split; [|done]].
  - intros p t Ht. destruct (Hp p t Ht) as [Hi Hl']. split; [|done].
    rewrite Hi. f_equal. lia.
  - intros p q t u Ht Hu Heq.
    destruct (Hp p t Ht) as [_ H1]. destruct (Hp q u Hu) as [_ H2].
    rewrite Heq in H1. congruence.
Qed.

Lemma task_ids_are_unique_witness :
  let hevs := [HITL.EvCall "list_tasks" Scenario.req_list;
               HITL.EvCall "add_task" Scenario.req_add] in
  let levs := [LRO.EvCall "slow" Scenario.req_list Scenario.up_ok] in
  let hreg := HITL.tasks (HITL.run Scenario.cel_demo Scenario.constraints0
                            hevs HITL.init).2 in
  (Z.of_nat (length hevs) < 2 ^ 64)%Z
  ∧ (ID <$> heap hreg !! 1%nat) = Some "2"
  ∧ longRunningTasks hreg !! "2" = Some 1%nat.
Proof.
  intros hevs levs hreg.
  assert (Hh : (Z.of_nat (length hevs) < 2 ^ 64)%Z) by (vm_compute; reflexivity).
  assert (Hl : (Z.of_nat (length levs) < 2 ^ 64)%Z) by (vm_compute; reflexivity).
  split; [exact Hh|].
  destruct (task_ids_are_unique Scenario.cel_demo Scenario.constraints0
              Scenario.lro0 hevs levs Hh Hl hreg (or_introl eq_refl))
    as (H & _ & _).
  assert (Ht : heap hreg !! 1%nat
               = Some {| ID := "2"; status := Pending; result := None |})
    by (vm_compute; reflexivity).
  destruct (H _ _ Ht) as [_ H2]. rewrite Ht. split; [reflexivity|exact H2].
Defined.




(** X14: which tools the config puts behind a task.  [loadConfig] keeps,
    for every method name, the last entry of the file with that name, so a
    tool is long running exactly when the last entry for its name is
    enabled: a later disabled entry switches an earlier enabled one off,
    and a name without an entry is passed through. *)
Theorem lroMethods_last_entry_wins (cs : list LRO.MethodConfig)
    (name : string) :
  LRO.loadConfig cs !! name
  = last (filter (λ c, LRO.MethodName c = name) cs)
  ∧ (name ∈ LRO.lroMethodsOf (LRO.loadConfig cs) ↔
       ∃ c, last (filter (λ c, LRO.MethodName c = name) cs) = Some c
            ∧ LRO.Enabled c = true).
Proof.
  assert (Hfold : ∀ l (acc : gmap string LRO.MethodConfig) n,
            foldl (λ m c, <[LRO.MethodName c := c]> m) acc l !! n
            = match last (filter (λ c, LRO.MethodName c = n) l) with
              | Some c => Some c
              | None => acc !! n
              end).
  { induction l as [|c l IH]; intros acc n; simpl; [done|].
    rewrite IH. rewrite filter_cons.
    destruct (decide (LRO.MethodName c = n)) as [<-|Hne].
    - destruct (filter _ l) as [|c' l'] eqn:E; simpl.
      + by rewrite lookup_insert_eq.
      + destruct (last (c' :: l')) eqn:E'; [done|].
        by apply last_None in E'.
    - destruct (last (filter _ l)); [done|]. by rewrite lookup_insert_ne. }
  assert (Hl : ∀ n, LRO.loadConfig cs !! n
                    = last (filter (λ c, LRO.MethodName c = n) cs)).
  { intros n. unfold LRO.loadConfig. rewrite Hfold, lookup_empty.
    by destruct (last _). }
  assert (Hkey : ∀ n c, LRO.loadConfig cs !! n = Some c → LRO.MethodName c = n).
  { intros n c H. rewrite Hl in H. apply last_Some_elem_of in H.
    by apply list_elem_of_filter in H as [H _]. }
  split; [apply Hl|].
  unfold LRO.lroMethodsOf. rewrite elem_of_list_to_set, list_elem_of_fmap.
  split.
  - intros (c & -> & Hc). apply list_elem_of_filter in Hc as [He Hc].
    apply list_elem_of_fmap in Hc as ([k c'] & -> & Hc). simpl in *.
    apply elem_of_map_to_list in Hc. pose proof (Hkey _ _ Hc) as <-.
    exists c'. by rewrite <- Hl.
  - intros (c & Hc & He). rewrite <- Hl in Hc. exists c.
    split; [by rewrite (Hkey _ _ Hc)|].
    apply list_elem_of_filter. split; [done|].
    apply list_elem_of_fmap. exists (name, c). split; [done|].
    by apply elem_of_map_to_list.
Qed.

End TaskEngineMore.

(** ** The consent proxy: approval from end to end *)

Module HITLMore.
Import Spec MoreSpec TaskEngineProofs HITL HITLProofs HITLView.

Section Lemmas.
Variable cel : string → gmap string Value → celRun.
Variable constraints : gmap string string.

Lemma quiet_init : quiet init.
Proof.
  split.
  - intros p t H. done.
  - intros p out H. simpl in H. by rewrite lookup_empty in H.
Qed.

Lemma quiet_set_goroutine s p g :
  quiet s →
  (∀ out, g = Returning out → unapproved out) →
  quiet (set_goroutines s (<[p := g]> (goroutines s))).
Proof.
  intros [Ht Hg] Hout. split; simpl; [done|].
  intros q out Hq. destruct (decide (p = q)) as [<-|Hne].
  - rewrite lookup_insert_eq in Hq. injection Hq as ->. by apply Hout.
  - rewrite lookup_insert_ne in Hq by done. by apply (Hg q).
Qed.

Lemma quiet_queue s q n :
  quiet s →
  quiet {| callQueue := q; nextCallID := n; tasks := tasks s;
           goroutines := goroutines s |}.
Proof. intros [Ht Hg]. by split. Qed.

Lemma step_quiet e s :
  quiet s →
  match e with EvDecide true _ _ => False | _ => True end →
  quiet (step cel constraints e s).2.
Proof.
  intros Hq He.
  destruct e as [name req|req|p|p|p|approve id CallTool]; simpl.
  - unfold toolHandler. rewrite consentProxyHandler_eq.
    destruct (evalConstraint _ _ _) as [[|]|err]; simpl; try done.
    destruct Hq as [Ht Hg]. split; simpl.
    + intros p t Hp.
      destruct (decide (p = length (heap (tasks s)))) as [->|Hne].
      * rewrite list_lookup_middle in Hp by done. injection Hp as <-.
        by left.
      * apply (Ht p). rewrite lookup_app_l in Hp; [done|].
        apply lookup_lt_Some in Hp. rewrite length_app in Hp. simpl in Hp.
        lia.
    + intros p out Hp.
      destruct (decide (length (heap (tasks s)) = p)) as [<-|Hne].
      * by rewrite lookup_insert_eq in Hp.
      * rewrite lookup_insert_ne in Hp by done. by apply (Hg p).
  - done.
  - destruct (goroutines s !! p) as [[req|pc|out]|] eqn:E; try done.
    simpl. apply (quiet_set_goroutine
      {| callQueue := _; nextCallID := _; tasks := tasks s;
         goroutines := goroutines s |}); [by apply quiet_queue|done].
  - destruct (goroutines s !! p) as [[req|pc|out]|] eqn:E; try done.
    simpl. apply quiet_set_goroutine; [done|].
    intros out [= <-]. right. by left.
  - destruct (goroutines s !! p) as [[req|pc|out]|] eqn:E; try done.
    destruct Hq as [Ht Hg]. split; simpl.
    + intros q t Hp. destruct (decide (p = q)) as [<-|Hne].
      * rewrite list_lookup_alter_eq in Hp.
        destruct (heap (tasks s) !! p); [|done]. injection Hp as <-.
        simpl. by apply (Hg p).
      * rewrite list_lookup_alter_ne in Hp by done. by apply (Ht q).
    + intros q out' Hp. destruct (decide (p = q)) as [<-|Hne].
      * by rewrite lookup_delete_eq in Hp.
      * rewrite lookup_delete_ne in Hp by done. by apply (Hg q).
  - destruct approve; [done|]. destruct id as [id|]; [|done].
    rewrite handleApproval_eq.
    destruct (callQueue s !! id) as [pc|]; simpl; [|by apply quiet_queue].
    unfold send. simpl.
    destruct (goroutines s !! ResponseC pc) as [[req|pc'|out]|] eqn:E;
      simpl; try by apply quiet_queue.
    apply (quiet_set_goroutine
      {| callQueue := _; nextCallID := _; tasks := tasks s;
         goroutines := goroutines s |}); [by apply quiet_queue|].
    intros out [= <-]. right. by right.
Qed.

Lemma run_quiet evs s :
  quiet s → no_approval evs → quiet (run cel constraints evs s).2.
Proof.
  revert s. induction evs as [|e evs IH]; intros s Hq Hn; [done|].
  apply Forall_cons in Hn as [He Hn]. rewrite run_cons. cbn [fst snd].
  apply IH; [|done]. by apply step_quiet.
Qed.

Lemma queue_full_init : queue_full init [].
Proof.
  split.
  - intros k Hk. simpl in Hk. lia.
  - intros k pc H. simpl in H. by rewrite lookup_empty in H.
Qed.

Lemma queue_full_same s s' ds :
  callQueue s' = callQueue s → nextCallID s' = nextCallID s →
  queue_full s ds → queue_full s' ds.
Proof. unfold queue_full. by intros -> ->. Qed.

Lemma step_queue_full e s ds :
  queue_inv s ds → queue_full s ds → (nextCallID s < MaxInt)%Z →
  queue_full (step cel constraints e s).2
    (ds ++ option_list (decided (e, (step cel constraints e s).1))).
Proof.
  intros Hi Hf Hlt.
  destruct e as [name req|req|p|p|p|approve id CallTool]; simpl.
  - unfold toolHandler. rewrite consentProxyHandler_eq, app_nil_r.
    destruct (evalConstraint _ _ _) as [[|]|err]; simpl;
      by apply (queue_full_same s).
  - by rewrite app_nil_r.
  - rewrite app_nil_r.
    destruct (goroutines s !! p) as [[req|pc|out]|] eqn:E; simpl; try done.
    destruct Hi as (H1 & _). destruct Hf as [Hall Hid]. split; simpl.
    + rewrite incr_int_small by lia. intros k Hk.
      destruct (decide (nextCallID s = k)) as [<-|Hne].
      * right. by rewrite lookup_insert_eq.
      * rewrite lookup_insert_ne by done. apply Hall. lia.
    + intros k pc Hk. destruct (decide (nextCallID s = k)) as [<-|Hne].
      * rewrite lookup_insert_eq in Hk. by injection Hk as <-.
      * rewrite lookup_insert_ne in Hk by done. by apply Hid.
  - rewrite app_nil_r.
    destruct (goroutines s !! p) as [[req|pc|out]|]; simpl;
      by apply (queue_full_same s).
  - rewrite app_nil_r.
    destruct (goroutines s !! p) as [[req|pc|out]|]; simpl;
      by apply (queue_full_same s).
  - destruct id as [id|]; [|simpl; by rewrite app_nil_r].
    rewrite handleApproval_eq.
    destruct (callQueue s !! id) as [pc|] eqn:E; cbv zeta; cbn [fst snd].
    + destruct (send_queue (ResponseC pc) (decision approve CallTool pc)
                  (lookupAndDelete id s).2) as [Sq Sn].
      assert (Hdel : queue_full (lookupAndDelete id s).2 (ds ++ [id])).
      { destruct Hf as [Hall Hid]. split; simpl.
        - intros k Hk. destruct (decide (id = k)) as [<-|Hne].
          + left. apply elem_of_app. right. by apply list_elem_of_singleton.
          + destruct (Hall k Hk) as [Hd|Hs].
            * left. apply elem_of_app. by left.
            * right. by rewrite lookup_delete_ne.
        - intros k pc' Hk. destruct (decide (id = k)) as [<-|Hne].
          + by rewrite lookup_delete_eq in Hk.
          + rewrite lookup_delete_ne in Hk by done. by apply Hid. }
      destruct (send _ _ _) as [[|] s2]; simpl in *;
        by apply (queue_full_same (lookupAndDelete id s).2).
    + simpl. rewrite app_nil_r.
      apply (queue_full_same s); [|done|done]. simpl. by rewrite delete_id.
Qed.

Lemma run_queue_full evs s ds :
  queue_inv s ds → queue_full s ds →
  (nextCallID s + Z.of_nat (length evs) ≤ MaxInt)%Z →
  queue_inv (run cel constraints evs s).2
    (ds ++ decisions (run cel constraints evs s).1)
  ∧ queue_full (run cel constraints evs s).2
      (ds ++ decisions (run cel constraints evs s).1).
Proof.
  revert s ds. induction evs as [|e evs IH]; intros s ds Hi Hf Hb.
  - simpl. by rewrite app_nil_r.
  - rewrite run_cons. cbn [fst snd length] in *.
    destruct (step_queue_inv cel constraints e s ds Hi) as [Hq Hn]; [lia|].
    pose proof (step_queue_full e s ds Hi Hf) as Hf'.
    specialize (IH _ _ Hq (Hf' ltac:(lia))).
    unfold decisions in *. cbn [omap list_omap].
    destruct (decided (e, (step cel constraints e s).1)) as [k|];
      cbn [option_list] in *.
    + rewrite <- app_assoc in IH. apply IH. lia.
    + rewrite app_nil_r in IH. apply IH. lia.
Qed.

Lemma ids_are_keys (l : list (Z * pendingCall)) :
  Forall (λ kp, pcID kp.2 = kp.1) l → pcID <$> l.*2 = l.*1.
Proof.
  induction l as [|[k pc] l IH]; intros H; [done|].
  apply Forall_cons in H as [Hk H]. simpl in *. rewrite Hk. f_equal.
  by apply IH.
Qed.

End Lemmas.

(** X15: nothing is executed without an approval.  In every schedule of the
    consent proxy that contains no approve request, every task that has a
    result has the result "Cancelled while waiting for approval" or "User
    rejected the request": what the upstream server would answer never
    reaches a task. *)
Theorem no_result_without_approval
    (cel : string → gmap string Value → celRun)
    (constraints : gmap string string) (evs : list event) (p : nat)
    (t : LongRunningTask) :
  no_approval evs →
  heap (tasks (run cel constraints evs init).2) !! p = Some t →
  result t = None
  ∨ result t = Some (NewToolResultError "Cancelled while waiting for approval")
  ∨ result t = Some (NewToolResultError "User rejected the request").
Proof.
  intros Hn Hp.
  destruct (run_quiet cel constraints evs init quiet_init Hn) as [Ht _].
  exact (Ht p t Hp).
Qed.

Lemma no_result_without_approval_witness :
  let evs := [EvCall "add_task" Scenario.req_add; EvRegister 0%nat;
              EvDecide false (Some 1) Scenario.up_ok; EvDone 0%nat] in
  no_approval evs
  ∧ (result <$> heap (tasks (run Scenario.cel_demo Scenario.constraints0
                               evs init).2) !! 0%nat)
    = Some (Some (NewToolResultError "User rejected the request")).
Proof.
  intros evs.
  assert (Hn : no_approval evs) by (repeat constructor).
  split; [exact Hn|].
  assert (Hp : heap (tasks (run Scenario.cel_demo Scenario.constraints0
                              evs init).2) !! 0%nat
               = Some {| ID := "1"; status := Done;
                         result := Some (NewToolResultError
                                           "User rejected the request") |})
    by (vm_compute; reflexivity).
  pose proof (no_result_without_approval Scenario.cel_demo
                Scenario.constraints0 evs 0 _ Hn Hp) as H.
  rewrite Hp. reflexivity.
Defined.



(** X17: a decision that comes after the waiter was cancelled is lost.
    Once the context of a queued call is done, an approve or reject request
    for it still finds and removes the entry, but its send on the response
    channel has no receiver: the request never gets its redirect, whether
    the goroutine has already finished or not, and the task keeps the
    result "Cancelled while waiting for approval". *)
Theorem decide_after_cancel_blocks
    (cel : string → gmap string Value → celRun)
    (constraints : gmap string string) (s : state) (id : Z)
    (pc : pendingCall) (approve : bool) (CallTool : upstream) :
  callQueue s !! id = Some pc →
  goroutines s !! ResponseC pc = Some (Selecting pc) →
  let s1 := (step cel constraints (EvCtxDone (ResponseC pc)) s).2 in
  let s2 := (step cel constraints (EvDone (ResponseC pc)) s1).2 in
  (handleApproval approve (Some id) CallTool s1).1 = Blocked
  ∧ callQueue (handleApproval approve (Some id) CallTool s1).2 !! id = None
  ∧ goroutines (handleApproval approve (Some id) CallTool s1).2
      !! ResponseC pc = Some (Returning (Some cancelled))
  ∧ (handleApproval approve (Some id) CallTool s2).1 = Blocked
  ∧ callQueue (handleApproval approve (Some id) CallTool s2).2 !! id = None
  ∧ tasks (handleApproval approve (Some id) CallTool s2).2 = tasks s2
  ∧ heap (tasks s2) !! ResponseC pc
    = (λ t, {| ID := ID t; status := Done; result := Some cancelled |})
        <$> heap (tasks s) !! ResponseC pc.
Proof.
  intros Hq Hg s1 s2.
  assert (H1 : s1 = wake (ResponseC pc) CtxDone s).
  { subst s1. cbn [step]. by rewrite Hg. }
  assert (Hg1 : goroutines s1 !! ResponseC pc
                = Some (Returning (Some cancelled))).
  { rewrite H1. unfold wake, set_goroutines. cbn [goroutines selected].
    by rewrite lookup_insert_eq. }
  assert (H2 : s2 = {| callQueue := callQueue s; nextCallID := nextCallID s;
                       tasks := complete (ResponseC pc) (Some cancelled)
                                  (tasks s);
                       goroutines := delete (ResponseC pc) (goroutines s1) |}).
  { subst s2. cbn [step]. rewrite Hg1. by rewrite H1. }
  assert (Hq1 : callQueue s1 !! id = Some pc) by (by rewrite H1).
  assert (Hq2 : callQueue s2 !! id = Some pc) by (by rewrite H2).
  assert (Hg2 : goroutines s2 !! ResponseC pc = None).
  { rewrite H2. cbn [goroutines]. apply lookup_delete_eq. }
  assert (Hsend : ∀ s' v, (∀ pc', goroutines s' !! ResponseC pc
                                  ≠ Some (Selecting pc')) →
            send (ResponseC pc) v (lookupAndDelete id s').2
            = (false, (lookupAndDelete id s').2)).
  { intros s' v Hs'. unfold send, lookupAndDelete. cbn [snd goroutines].
    destruct (goroutines s' !! ResponseC pc) as [[r|pc'|out]|] eqn:E; try done.
    by destruct (Hs' pc'). }
  clearbody s2. clearbody s1.
  rewrite !handleApproval_eq, Hq1, Hq2. cbv zeta.
  rewrite (Hsend s1) by (intros pc'; by rewrite Hg1).
  rewrite (Hsend s2) by (intros pc'; by rewrite Hg2).
  cbn [fst snd lookupAndDelete callQueue goroutines tasks].
  split; [done|]. split; [apply lookup_delete_eq|]. split; [done|].
  split; [done|]. split; [apply lookup_delete_eq|]. split; [done|].
  rewrite H2. cbn [tasks complete heap]. apply list_lookup_alter_eq.
Qed.

Lemma decide_after_cancel_blocks_witness :
  let pc := {| pcID := 1; Request := Scenario.req_add; ResponseC := 0%nat |} in
  let s1 := (step Scenario.cel_demo Scenario.constraints0 (EvCtxDone 0%nat)
               Scenario.hitl_waiting).2 in
  callQueue Scenario.hitl_waiting !! 1%Z = Some pc
  ∧ (handleApproval true (Some 1) Scenario.up_ok s1).1 = Blocked.
Proof.
  intros pc s1.
  assert (Hq : callQueue Scenario.hitl_waiting !! 1%Z = Some pc)
    by (vm_compute; reflexivity).
  assert (Hg : goroutines Scenario.hitl_waiting !! ResponseC pc
               = Some (Selecting pc)) by (vm_compute; reflexivity).
  split; [exact Hq|].
  destruct (decide_after_cancel_blocks Scenario.cel_demo
              Scenario.constraints0 Scenario.hitl_waiting 1 pc true
              Scenario.up_ok Hq Hg) as (H & _).
  exact H.
Defined.

(** X18: the approval page shows exactly the calls that await a decision.
    In every schedule from the start (within the range of the id counter),
    the rows of the page carry pairwise different ids; an id is on the page
    exactly when it has been issued (it is between 1 and the next id) and
    has not been decided; and each row shows the tool name and arguments of
    the request queued under its id. *)
Theorem listPendingCalls_shows_pending
    (cel : string → gmap string Value → celRun)
    (constraints : gmap string string)
    (MarshalIndent : gmap string Value → string) (evs : list event) :
  (Z.of_nat (length evs) < MaxInt)%Z →
  let r := run cel constraints evs init in
  let rows := listPendingCalls MarshalIndent r.2 in
  NoDup (rowID <$> rows)
  ∧ (∀ k, k ∈ rowID <$> rows ↔
       (1 ≤ k < nextCallID r.2)%Z ∧ k ∉ decisions r.1)
  ∧ (∀ x, x ∈ rows →
       ∃ pc, callQueue r.2 !! rowID x = Some pc
             ∧ Tool x = Name (Request pc)
             ∧ Args x = MarshalIndent (Arguments (Request pc))).
Proof.
  intros Hlen r rows.
  destruct (run_queue_full cel constraints evs init []
              (queue_inv_init) queue_full_init) as [Hi Hf].
  { unfold MaxInt in *. simpl. lia. }
  rewrite app_nil_l in Hi, Hf. fold r in Hi, Hf.
  destruct Hi as (H1 & Hrange & Hdec & Hnd). destruct Hf as [Hall Hid].
  assert (Hkeys : rowID <$> rows = (map_to_list (callQueue r.2)).*1).
  { subst rows. unfold listPendingCalls. rewrite <- list_fmap_compose.
    rewrite <- ids_are_keys.
    - by apply list_fmap_ext.
    - apply Forall_forall. intros [k pc] Hin. simpl.
      apply elem_of_map_to_list in Hin. by apply Hid. }
  split; [|split].
  - rewrite Hkeys. apply NoDup_fst_map_to_list.
  - intros k. rewrite Hkeys. rewrite list_elem_of_fmap. split.
    + intros ([k' pc] & -> & Hin). simpl.
      apply elem_of_map_to_list in Hin.
      split; [apply Hrange; by rewrite Hin|].
      intros Hd. destruct (Hdec _ Hd) as [_ Hnone]. congruence.
    + intros [Hk Hnd']. destruct (Hall k Hk) as [Hd|[pc Hpc]]; [done|].
      exists (k, pc). split; [done|]. by apply elem_of_map_to_list.
  - intros x Hx. subst rows. unfold listPendingCalls in Hx.
    apply list_elem_of_fmap in Hx as (pc & -> & Hx).
    apply list_elem_of_fmap in Hx as ([k pc'] & -> & Hx). simpl.
    apply elem_of_map_to_list in Hx. exists pc'.
    by rewrite (Hid _ _ Hx).
Qed.

Lemma listPendingCalls_shows_pending_witness :
  let evs := [EvCall "add_task" Scenario.req_add; EvRegister 0%nat;
              EvCall "list_tasks" Scenario.req_list; EvRegister 1%nat;
              EvDecide false (Some 1) Scenario.up_ok] in
  let r := run Scenario.cel_demo Scenario.constraints0 evs init in
  (Z.of_nat (length evs) < MaxInt)%Z
  ∧ (2 ∈ rowID <$> listPendingCalls (λ _, "{}") r.2)
  ∧ (1 ∉ rowID <$> listPendingCalls (λ _, "{}") r.2).
Proof.
  intros evs r.
  assert (Hlen : (Z.of_nat (length evs) < MaxInt)%Z) by (vm_compute; reflexivity).
  split; [exact Hlen|].
  destruct (listPendingCalls_shows_pending Scenario.cel_demo
              Scenario.constraints0 (λ _, "{}") evs Hlen) as (_ & H & _).
  assert (Hn : nextCallID r.2 = 3%Z) by (vm_compute; reflexivity).
  assert (Hd : decisions r.1 = [1%Z]) by (vm_compute; reflexivity).
  fold r in H. split.
  - apply H. rewrite Hn, Hd. split; [lia|].
    intros Hin. apply list_elem_of_singleton in Hin. discriminate.
  - intros Hin. apply H in Hin as [_ Hin]. apply Hin. rewrite Hd.
    by apply list_elem_of_singleton.
Defined.

End HITLMore.

(** ** Polls of a finished task, stderr mirroring, session ids *)

Module PollMore.
Import Spec MoreSpec TaskEngineProofs TaskEngineMore.

Lemma lro_run_length lroMethods evs s :
  (length (heap (LRO.tasks (LRO.run lroMethods evs s)))
   ≤ length (heap (LRO.tasks s)) + length evs)%nat.
Proof.
  revert s. induction evs as [|e evs IH]; intros s; simpl; [lia|].
  specialize (IH (LRO.step lroMethods e s)).
  assert (length (heap (LRO.tasks (LRO.step lroMethods e s)))
          ≤ S (length (heap (LRO.tasks s))))%nat; [|unfold LRO.run in *; lia].
  destruct e as [name req CallTool|req|p CallTool|p]; simpl.
  - destruct (decide (name ∈ lroMethods)) as [Hin|Hin].
    + rewrite LROProofs.proxyHandler_lro by done. simpl.
      rewrite length_app. simpl. lia.
    + rewrite LROProofs.proxyHandler_direct by done. simpl. lia.
  - lia.
  - destruct (LRO.goroutines s !! p) as [[req|out]|]; simpl; lia.
  - destruct (LRO.goroutines s !! p) as [[req|out]|]; simpl;
      rewrite ?length_alter; lia.
Qed.

Lemma hitl_run_length cel constraints evs s :
  (length (heap (HITL.tasks (HITL.run cel constraints evs s).2))
   ≤ length (heap (HITL.tasks s)) + length evs)%nat.
Proof.
  revert s. induction evs as [|e evs IH]; intros s; [simpl; lia|].
  rewrite HITLProofs.run_cons. cbn [fst snd length].
  specialize (IH (HITL.step cel constraints e s).2).
  assert (length (heap (HITL.tasks (HITL.step cel constraints e s).2))
          ≤ S (length (heap (HITL.tasks s))))%nat; [|lia].
  destruct e as [name req|req|p|p|p|approve id CallTool]; simpl.
  - unfold HITL.toolHandler. rewrite HITLProofs.consentProxyHandler_eq.
    destruct (HITL.evalConstraint _ _ _) as [[|]|err]; simpl; try lia.
    rewrite length_app. simpl. lia.
  - lia.
  - destruct (HITL.goroutines s !! p) as [[req|pc|out]|]; simpl; lia.
  - destruct (HITL.goroutines s !! p) as [[req|pc|out]|]; simpl; lia.
  - destruct (HITL.goroutines s !! p) as [[req|pc|out]|]; simpl;
      rewrite ?length_alter; lia.
  - pose proof (HITLProofs.handleApproval_tasks approve id CallTool s) as Ht.
    destruct (HITL.handleApproval approve id CallTool s) as [r s'].
    simpl in *. rewrite Ht. lia.
Qed.

(** A finished task that the registry holds under [id] is what a poll with
    [id] answers, as long as the registry keeps its ids in step. *)
Lemma poll_done reg reg' id p t :
  ids_inv reg → ids_inv reg' →
  longRunningTasks reg !! id = Some p →
  heap reg !! p = Some t → heap reg' !! p = Some t → status t = Done →
  checkLongRunningTaskHandler (poll id) reg' = Returned 0 (result t).
Proof.
  intros (_ & _ & Hm) (_ & Hh' & _) Hl Hp Hp' Hd.
  destruct (Hm id p Hl) as (t0 & Ht0 & Hid). rewrite Hp in Ht0.
  injection Ht0 as <-. destruct (Hh' p t Hp') as [_ Hl']. rewrite Hid in Hl'.
  unfold checkLongRunningTaskHandler, RequireString, GetArguments, poll.
  simpl. rewrite lookup_singleton_eq, Hl', Hp'. unfold Status, Result.
  rewrite decide_False by (rewrite Hd; done). by rewrite decide_True.
Qed.

(** X19: results are kept.  Once a task of either proxy is done, every
    later poll with its id answers at once with the same result, whatever
    else happens in between (other calls, polls, decisions, other tasks
    finishing), as long as fewer than 2^64 tasks have been started. *)
Theorem poll_result_is_stable
    (cel : string → gmap string Value → HITL.celRun)
    (constraints : gmap string string) (lroMethods : gset string)
    (hevs hevs' : list HITL.event) (levs levs' : list LRO.event)
    (id : string) (p : nat) (t : LongRunningTask) :
  (Z.of_nat (length hevs + length hevs') < 2 ^ 64)%Z →
  (Z.of_nat (length levs + length levs') < 2 ^ 64)%Z →
  status t = Done →
  let hs := (HITL.run cel constraints hevs HITL.init).2 in
  let ls := LRO.run lroMethods levs LRO.init in
  (longRunningTasks (HITL.tasks hs) !! id = Some p →
   heap (HITL.tasks hs) !! p = Some t →
   checkLongRunningTaskHandler (poll id)
     (HITL.tasks (HITL.run cel constraints hevs' hs).2)
   = Returned 0 (result t))
  ∧ (longRunningTasks (LRO.tasks ls) !! id = Some p →
     heap (LRO.tasks ls) !! p = Some t →
     checkLongRunningTaskHandler (poll id)
       (LRO.tasks (LRO.run lroMethods levs' ls))
     = Returned 0 (result t)).
Proof.
  intros Hh Hl Hd hs ls. split.
  - intros Hm Hp.
    assert (Hi : ids_inv (HITL.tasks hs)).
    { apply hitl_run_ids; [apply ids_inv_empty|]. simpl. lia. }
    pose proof (hitl_run_length cel constraints hevs HITL.init) as Hlen.
    simpl in Hlen. fold hs in Hlen.
    apply (poll_done (HITL.tasks hs) _ id p t); try done.
    + apply hitl_run_ids; [done|]. lia.
    + apply HITLProofs.hitl_run_keeps_done; try done.
      apply HITLProofs.hitl_run_inv, HITLProofs.hitl_inv_init.
  - intros Hm Hp.
    assert (Hi : ids_inv (LRO.tasks ls)).
    { apply lro_run_ids; [apply ids_inv_empty|]. simpl. lia. }
    pose proof (lro_run_length lroMethods levs LRO.init) as Hlen.
    simpl in Hlen. fold ls in Hlen.
    apply (poll_done (LRO.tasks ls) _ id p t); try done.
    + apply lro_run_ids; [done|]. lia.
    + apply LROProofs.lro_run_keeps_done; try done.
      apply LROProofs.lro_run_inv, LROProofs.lro_inv_init.
Qed.

Lemma poll_result_is_stable_witness :
  let hevs := [HITL.EvCall "add_task" Scenario.req_add; HITL.EvRegister 0%nat;
               HITL.EvDecide true (Some 1) Scenario.up_ok;
               HITL.EvDone 0%nat] in
  let hevs' := [HITL.EvCall "list_tasks" Scenario.req_list;
                HITL.EvRegister 1%nat;
                HITL.EvDecide false (Some 2) Scenario.up_ok] in
  let levs := [LRO.EvCall "slow" Scenario.req_list Scenario.up_ok;
               LRO.EvWork 0%nat Scenario.up_ok; LRO.EvDone 0%nat] in
  let levs' := [LRO.EvCall "slow" Scenario.req_add Scenario.up_fails;
                LRO.EvCall "fast" Scenario.req_add Scenario.up_ok] in
  let t := {| ID := "1"; status := Done;
              result := Some (NewToolResultText "ok") |} in
  let hs := (HITL.run Scenario.cel_demo Scenario.constraints0 hevs
               HITL.init).2 in
  let ls := LRO.run Scenario.lro0 levs LRO.init in
  (Z.of_nat (length hevs + length hevs') < 2 ^ 64)%Z
  ∧ status t = Done
  ∧ heap (HITL.tasks hs) !! 0%nat = Some t
  ∧ checkLongRunningTaskHandler (poll "1")
      (HITL.tasks (HITL.run Scenario.cel_demo Scenario.constraints0 hevs'
                     hs).2)
    = Returned 0 (Some (NewToolResultText "ok"))
  ∧ heap (LRO.tasks ls) !! 0%nat = Some t
  ∧ checkLongRunningTaskHandler (poll "1")
      (LRO.tasks (LRO.run Scenario.lro0 levs' ls))
    = Returned 0 (Some (NewToolResultText "ok")).
Proof.
  intros hevs hevs' levs levs' t hs ls.
  assert (Hh : (Z.of_nat (length hevs + length hevs') < 2 ^ 64)%Z)
    by (vm_compute; reflexivity).
  assert (Hl : (Z.of_nat (length levs + length levs') < 2 ^ 64)%Z)
    by (vm_compute; reflexivity).
  assert (Hd : status t = Done) by reflexivity.
  assert (Hhm : longRunningTasks (HITL.tasks hs) !! "1" = Some 0%nat)
    by (vm_compute; reflexivity).
  assert (Hhp : heap (HITL.tasks hs) !! 0%nat = Some t)
    by (vm_compute; reflexivity).
  assert (Hlm : longRunningTasks (LRO.tasks ls) !! "1" = Some 0%nat)
    by (vm_compute; reflexivity).
  assert (Hlp : heap (LRO.tasks ls) !! 0%nat = Some t)
    by (vm_compute; reflexivity).
  destruct (poll_result_is_stable Scenario.cel_demo Scenario.constraints0
              Scenario.lro0 hevs hevs' levs levs' "1" 0%nat t Hh Hl Hd)
    as [H1 H2].
  split; [exact Hh|]. split; [exact Hd|]. split; [exact Hhp|].
  split; [exact (H1 Hhm Hhp)|]. split; [exact Hlp|]. exact (H2 Hlm Hlp).
Defined.

End PollMore.

Module MirrorProofs.
Import Mirror.





End MirrorProofs.

Module SessionIdProofs.
Import McpServer.

Lemma string_app_assoc (a b c : string) : (a ++ b) ++ c = a ++ b ++ c.
Proof.
  induction a as [|x a IH]; [done|].
  change (String x ((a ++ b) ++ c) = String x (a ++ b ++ c)). by f_equal.
Qed.

Lemma pretty_N_go_app (x : N) (s : string) :
  pretty_N_go x s = pretty_N_go x EmptyString ++ s.
Proof.
  revert s. induction (N.lt_wf_0 x) as [x _ IH]; intros s.
  assert (x = 0 ∨ 0 < x)%N as [->|Hx] by lia.
  { by rewrite !pretty_N_go_0. }
  rewrite (pretty_N_go_step x s), (pretty_N_go_step x EmptyString) by done.
  assert (Hlt : (x `div` 10 < x)%N) by (by apply N.div_lt).
  rewrite (IH _ Hlt (String _ s)), (IH _ Hlt (String _ EmptyString)).
  by rewrite string_app_assoc.
Qed.

Lemma pretty_N_snoc (r d : N) :
  (0 < r)%N → (d < 10)%N →
  pretty (10 * r + d)%N = pretty r ++ String (pretty_N_char d) EmptyString.
Proof.
  intros Hr Hd. unfold pretty, pretty_N.
  rewrite !decide_False by lia.
  rewrite pretty_N_go_step by lia.
  replace ((10 * r + d) `div` 10)%N with r
    by (apply N.div_unique with d; lia).
  replace ((10 * r + d) `mod` 10)%N with d
    by (apply N.mod_unique with r; lia).
  apply pretty_N_go_app.
Qed.

Lemma pretty_N_digit (d : N) :
  (0 < d < 10)%N → pretty d = String (pretty_N_char d) EmptyString.
Proof.
  intros Hd. unfold pretty, pretty_N. rewrite decide_False by lia.
  rewrite pretty_N_go_step by lia.
  rewrite N.div_small, N.mod_small by lia. apply pretty_N_go_0.
Qed.

(** X21: session ids are not unique by construction.  [%d%d%d] puts no
    separator between the clock reading and the two draws, so at one clock
    reading different pairs of draws print the same id; a second
    [create_db] that draws such a pair gets the session id, and with it
    the database file, of the first. *)
Theorem generateSessionID_collides (nano : Z) (r d : N) (m : SessionManager.SessionManager) :
  (0 < r)%N → (1 ≤ d ≤ 9)%N → (10 * r + d < 2 ^ 64)%N →
  (10 * r + d, 0)%N ≠ (r, 10 * d)%N
  ∧ generateSessionID nano (10 * r + d) 0 = generateSessionID nano r (10 * d)
  ∧ SessionManager.dbPath m (generateSessionID nano (10 * r + d) 0)
    = SessionManager.dbPath m (generateSessionID nano r (10 * d)).
Proof.
  intros Hr Hd Hmax.
  assert (Heq : generateSessionID nano (10 * r + d) 0
                = generateSessionID nano r (10 * d)).
  { unfold generateSessionID. f_equal.
    rewrite pretty_N_snoc by lia.
    replace (10 * d)%N with (10 * d + 0)%N by lia.
    rewrite (pretty_N_snoc d 0) by lia.
    rewrite (pretty_N_digit d) by lia.
    change (pretty 0%N) with (String (pretty_N_char 0) EmptyString).
    by rewrite string_app_assoc. }
  split; [|split; [done|by rewrite Heq]].
  intros H. apply (f_equal snd) in H. cbn [snd] in H. lia.
Qed.

Lemma generateSessionID_collides_witness :
  (0 < 1)%N ∧ (1 ≤ 2 ≤ 9)%N
  ∧ generateSessionID 1700000000000000000 12 0 = "1700000000000000000120"
  ∧ generateSessionID 1700000000000000000 1 20 = "1700000000000000000120".
Proof.
  assert (Hr : (0 < 1)%N) by lia.
  assert (Hd : (1 ≤ 2 ≤ 9)%N) by lia.
  assert (Hm : (10 * 1 + 2 < 2 ^ 64)%N) by (vm_compute; reflexivity).
  destruct (generateSessionID_collides 1700000000000000000 1 2
              Scenario.mgr0 Hr Hd Hm) as (_ & H & _).
  split; [exact Hr|]. split; [exact Hd|].
  assert (H2 : generateSessionID 1700000000000000000 1 20
               = "1700000000000000000120") by (vm_compute; reflexivity).
  split; [|exact H2].
  change (10 * 1 + 2)%N with 12%N in H. change (10 * 2)%N with 20%N in H.
  rewrite H. exact H2.
Defined.

End SessionIdProofs.
